(** * The alternating disks problem: a shallow embedding of [disks.hpp]

    The header defines a row of disks ([disk_state]), the result of a sort
    ([sorted_disks]) and two sorting algorithms ([sort_left_to_right] and
    [sort_lawnmower]).  Every C++ function is embedded below as a Rocq
    function of the same name.

    Modelling conventions
    - [size_t] is a 64-bit unsigned integer, represented in [Z] with its
      wrap-around written out ([sz_add], [sz_sub], [sz_mul]).
    - [int] is a 32-bit two's complement integer whose increment wraps
      ([int_incr]); [unsigned] is its residue modulo [2^32].
    - [assert] is active: a failed assertion aborts the call ([Aborted]) and
      records which assertion failed.
    - A loop is a [Fixpoint] on a fuel argument that evaluates the loop test
      at every iteration, with the index and the bound as the source
      computes them; running out of fuel is a separate outcome
      ([OutOfFuel]), and the theorems show that the fuel given suffices.
    - The sorters receive [before] by reference and mutate the object behind
      it; the embedding passes the state of that object in and returns its
      final state next to the function's return value.
    - Memory exhaustion ([std::bad_alloc], [std::length_error]) is not
      modelled. *)

From Stdlib Require Import ZArith Lia.
From stdpp Require Import base list strings.

Local Open Scope Z_scope.

(** ** Outcomes of a call *)

Inductive assertion : Set :=
  | Assert_dark_count_positive   (* assert(dark_count() > 0)        *)
  | Assert_is_index              (* assert(is_index(...))           *)
  | Assert_is_alternating.       (* assert(before.is_alternating()) *)

Inductive outcome (A : Type) : Type :=
  | Done (a : A)
  | Aborted (which : assertion)
  | OutOfFuel.

Arguments Done {A} a.
Arguments Aborted {A} which.
Arguments OutOfFuel {A}.

#[global] Instance outcome_ret : MRet outcome := fun A a => Done a.

#[global] Instance outcome_bind : MBind outcome := fun A B f m =>
  match m with
  | Done a => f a
  | Aborted w => Aborted w
  | OutOfFuel => OutOfFuel
  end.

Definition assert (b : bool) (which : assertion) : outcome unit :=
  if b then Done tt else Aborted which.

(** ** Machine integers *)

Definition size_t_modulus : Z := 2 ^ 64.

Definition sz_wrap (z : Z) : Z := z mod size_t_modulus.
Definition sz_add (a b : Z) : Z := sz_wrap (a + b).
Definition sz_sub (a b : Z) : Z := sz_wrap (a - b).
Definition sz_mul (a b : Z) : Z := sz_wrap (a * b).

Definition is_size_t (z : Z) : Prop := 0 <= z < size_t_modulus.

(** [swapCount++] on a 32-bit two's complement [int]. *)
Definition int_wrap (z : Z) : Z := (z + 2 ^ 31) mod 2 ^ 32 - 2 ^ 31.
Definition int_incr (c : Z) : Z := int_wrap (c + 1).

(** Conversion of an [int] argument to an [unsigned] parameter. *)
Definition to_unsigned (c : Z) : Z := c mod 2 ^ 32.

(** ** [disk_color] and [disk_state] *)

Inductive disk_color : Set := DISK_LIGHT | DISK_DARK.

#[global] Instance disk_color_eq_dec : EqDecision disk_color.
Proof. solve_decision. Defined.

Definition color_eqb (a b : disk_color) : bool :=
  match a, b with
  | DISK_LIGHT, DISK_LIGHT | DISK_DARK, DISK_DARK => true
  | _, _ => false
  end.

Record disk_state : Type := { _colors : list disk_color }.

Definition total_count (this : disk_state) : Z :=
  Z.of_nat (length (_colors this)).

Definition dark_count (this : disk_state) : Z := total_count this / 2.

Definition light_count (this : disk_state) : Z := dark_count this.

Definition is_index (this : disk_state) (i : Z) : bool :=
  i <? total_count this.

Definition get (this : disk_state) (index : Z) : outcome disk_color :=
  _ ← assert (is_index this index) Assert_is_index;
  match _colors this !! Z.to_nat index with
  | Some c => Done c
  | None => Aborted Assert_is_index
  end.

Definition swap (this : disk_state) (left_index : Z) : outcome disk_state :=
  _ ← assert (is_index this left_index) Assert_is_index;
  let right_index := sz_add left_index 1 in
  _ ← assert (is_index this right_index) Assert_is_index;
  match _colors this !! Z.to_nat left_index,
        _colors this !! Z.to_nat right_index with
  | Some a, Some b =>
      Done {| _colors := <[Z.to_nat right_index := a]>
                          (<[Z.to_nat left_index := b]> (_colors this)) |}
  | _, _ => Aborted Assert_is_index
  end.

(** The loop of the constructor: [for (i = 1; i < _colors.size(); i += 2)]. *)
Fixpoint disk_state_loop (fuel : nat) (i : Z) (cs : list disk_color)
  : outcome (list disk_color) :=
  if i <? Z.of_nat (length cs) then
    match fuel with
    | O => OutOfFuel
    | S fuel' =>
        disk_state_loop fuel' (sz_add i 2) (<[Z.to_nat i := DISK_DARK]> cs)
    end
  else Done cs.

(** The constructor [disk_state(size_t light_count)]. *)
Definition disk_state_new (light_count : Z) : outcome disk_state :=
  let cs := replicate (Z.to_nat (sz_mul light_count 2)) DISK_LIGHT in
  _ ← assert (0 <? dark_count {| _colors := cs |}) Assert_dark_count_positive;
  cs' ← disk_state_loop (length cs) 1 cs;
  Done {| _colors := cs' |}.

(** [std::equal(first1, last1, first2)]: walks the first range and reads the
    second one in step; it has no end for the second range, so reading past
    it is undefined behaviour ([None]). *)
Fixpoint std_equal (l1 l2 : list disk_color) : option bool :=
  match l1 with
  | [] => Some true
  | x :: l1' =>
      match l2 with
      | [] => None
      | y :: l2' => if color_eqb x y then std_equal l1' l2' else Some false
      end
  end.

(** [operator==]. *)
Definition disk_state_eq (this rhs : disk_state) : option bool :=
  std_equal (_colors this) (_colors rhs).

(** [to_string]: the body of the range-for, then the whole loop. *)
Fixpoint to_string_loop (cs : list disk_color) (first : bool) (ss : string)
  : string :=
  match cs with
  | [] => ss
  | color :: cs' =>
      let ss := if negb first then (ss +:+ " ")%string else ss in
      let ss := if color_eqb color DISK_LIGHT
                then (ss +:+ "L")%string else (ss +:+ "D")%string in
      to_string_loop cs' false ss
  end.

Definition to_string (this : disk_state) : string :=
  to_string_loop (_colors this) true ""%string.

(** [is_alternating]: [for (i = 0; i < size - 1; i += 2)]. *)
Fixpoint is_alternating_loop (fuel : nat) (this : disk_state) (size i : Z)
  : outcome bool :=
  if i <? sz_sub size 1 then
    match fuel with
    | O => OutOfFuel
    | S fuel' =>
        c ← get this i;
        if negb (color_eqb c DISK_LIGHT) then Done false
        else
          c' ← get this (sz_add i 1);
          if negb (color_eqb c' DISK_DARK) then Done false
          else is_alternating_loop fuel' this size (sz_add i 2)
    end
  else Done true.

Definition is_alternating (this : disk_state) : outcome bool :=
  let size := total_count this in
  is_alternating_loop (S (length (_colors this))) this size 0.

(** [is_sorted]: [for (i = 0; i < lightSize; i++)]. *)
Fixpoint is_sorted_loop (fuel : nat) (this : disk_state) (lightSize i : Z)
  : outcome bool :=
  if i <? lightSize then
    match fuel with
    | O => OutOfFuel
    | S fuel' =>
        c ← get this i;
        if negb (color_eqb c DISK_LIGHT) then Done false
        else
          c' ← get this (sz_add i lightSize);
          if negb (color_eqb c' DISK_DARK) then Done false
          else is_sorted_loop fuel' this lightSize (sz_add i 1)
    end
  else Done true.

Definition is_sorted (this : disk_state) : outcome bool :=
  let lightSize := light_count this in
  is_sorted_loop (length (_colors this)) this lightSize 0.

(** ** [sorted_disks] *)

(** The fields [_after] and [_swap_count]; the projections are the accessors
    [after()] and [swap_count()]. *)
Record sorted_disks : Type :=
  { after : disk_state; swap_count : Z }.

(** The constructor [sorted_disks(const disk_state&, unsigned)]: copies the
    row and converts the count to [unsigned]. *)
Definition sorted_disks_new (after : disk_state) (swap_count : Z)
  : sorted_disks :=
  {| after := after; swap_count := to_unsigned swap_count |}.

(** ** The two sorting algorithms

    Both sorters read and write the one object that [before] refers to.  The
    loops below take the state of that object and the local [swapCount] and
    return both; the sorters return the final state of the caller's object
    together with the [sorted_disks] value. *)

(** [if (before.get(j) == DISK_DARK && before.get(j + 1) == DISK_LIGHT)
       { before.swap(j); swapCount++; }] *)
Definition swap_if_dark_light (before : disk_state) (j : Z) (swapCount : Z)
  : outcome (disk_state * Z) :=
  c ← get before j;
  if color_eqb c DISK_DARK then
    c' ← get before (sz_add j 1);
    if color_eqb c' DISK_LIGHT then
      before' ← swap before j;
      Done (before', int_incr swapCount)
    else Done (before, swapCount)
  else Done (before, swapCount).

(** [if (before.get(j) == DISK_LIGHT && before.get(j - 1) == DISK_DARK)
       { before.swap(j - 1); swapCount++; }] *)
Definition swap_if_light_after_dark (before : disk_state) (j : Z)
  (swapCount : Z) : outcome (disk_state * Z) :=
  c ← get before j;
  if color_eqb c DISK_LIGHT then
    c' ← get before (sz_sub j 1);
    if color_eqb c' DISK_DARK then
      before' ← swap before (sz_sub j 1);
      Done (before', int_incr swapCount)
    else Done (before, swapCount)
  else Done (before, swapCount).

(** Inner loop of [sort_left_to_right]:
    [for (auto j = i + 1; j < totalCount - i - 1; j++)]. *)
Fixpoint left_to_right_inner (fuel : nat) (totalCount i j : Z)
  (before : disk_state) (swapCount : Z) : outcome (disk_state * Z) :=
  if j <? sz_sub (sz_sub totalCount i) 1 then
    match fuel with
    | O => OutOfFuel
    | S fuel' =>
        '(before', swapCount') ← swap_if_dark_light before j swapCount;
        left_to_right_inner fuel' totalCount i (sz_add j 1) before' swapCount'
    end
  else Done (before, swapCount).

(** Outer loop of [sort_left_to_right]:
    [for (size_t i = 0; i < lightCount; i++)]. *)
Fixpoint left_to_right_outer (fuel : nat) (lightCount totalCount i : Z)
  (before : disk_state) (swapCount : Z) : outcome (disk_state * Z) :=
  if i <? lightCount then
    match fuel with
    | O => OutOfFuel
    | S fuel' =>
        '(before', swapCount') ←
          left_to_right_inner (Z.to_nat totalCount) totalCount i (sz_add i 1)
            before swapCount;
        left_to_right_outer fuel' lightCount totalCount (sz_add i 1)
          before' swapCount'
    end
  else Done (before, swapCount).

Definition sort_left_to_right (before : disk_state)
  : outcome (disk_state * sorted_disks) :=
  alt ← is_alternating before;
  _ ← assert alt Assert_is_alternating;
  let swapCount := 0 in
  let lightCount := light_count before in
  let totalCount := total_count before in
  '(before', swapCount') ←
    left_to_right_outer (Z.to_nat totalCount) lightCount totalCount 0
      before swapCount;
  Done (before', sorted_disks_new before' swapCount').

(** Backward loop of [sort_lawnmower]:
    [for (auto j = totalCount - i - 1; j > i; j--)]. *)
Fixpoint lawnmower_backward (fuel : nat) (i j : Z)
  (before : disk_state) (swapCount : Z) : outcome (disk_state * Z) :=
  if i <? j then
    match fuel with
    | O => OutOfFuel
    | S fuel' =>
        '(before', swapCount') ← swap_if_light_after_dark before j swapCount;
        lawnmower_backward fuel' i (sz_sub j 1) before' swapCount'
    end
  else Done (before, swapCount).

(** Forward loop of [sort_lawnmower]:
    [for (auto j = i + 1; j < totalCount - i; j++)].  As the braces of the
    source stand, the body of this loop is the test-and-swap at [j], then
    [i++], then the whole backward loop; [i] is the counter of the outer
    loop, so the loop returns it. *)
Fixpoint lawnmower_forward (fuel : nat) (totalCount i j : Z)
  (before : disk_state) (swapCount : Z) : outcome (Z * disk_state * Z) :=
  if j <? sz_sub totalCount i then
    match fuel with
    | O => OutOfFuel
    | S fuel' =>
        '(before1, swapCount1) ← swap_if_dark_light before j swapCount;
        let i := sz_add i 1 in
        '(before2, swapCount2) ←
          lawnmower_backward (Z.to_nat totalCount) i
            (sz_sub (sz_sub totalCount i) 1) before1 swapCount1;
        lawnmower_forward fuel' totalCount i (sz_add j 1) before2 swapCount2
    end
  else Done (i, before, swapCount).

(** Outer loop of [sort_lawnmower]:
    [for (size_t i = 0; i < lightCount / 2; i++)]. *)
Fixpoint lawnmower_outer (fuel : nat) (lightCount totalCount i : Z)
  (before : disk_state) (swapCount : Z) : outcome (disk_state * Z) :=
  if i <? lightCount / 2 then
    match fuel with
    | O => OutOfFuel
    | S fuel' =>
        '(i', before', swapCount') ←
          lawnmower_forward (Z.to_nat totalCount) totalCount i (sz_add i 1)
            before swapCount;
        lawnmower_outer fuel' lightCount totalCount (sz_add i' 1)
          before' swapCount'
    end
  else Done (before, swapCount).

Definition sort_lawnmower (before : disk_state)
  : outcome (disk_state * sorted_disks) :=
  alt ← is_alternating before;
  _ ← assert alt Assert_is_alternating;
  let swapCount := 0 in
  let lightCount := light_count before in
  let totalCount := total_count before in
  '(before', swapCount') ←
    lawnmower_outer (Z.to_nat totalCount) lightCount totalCount 0
      before swapCount;
  Done (before', sorted_disks_new before' swapCount').

(** ** Rows in closed form

    A row of [n] disks whose colour at position [p] is [f p].  The states the
    sorters pass through are all written this way, so that a step of a loop
    becomes a comparison of two colour functions on the indices of the row. *)

Definition row_of (n : nat) (f : Z → disk_color) : disk_state :=
  {| _colors := (λ p : nat, f (Z.of_nat p)) <$> seq 0 n |}.

Arguments row_of : simpl never.

(** The colour function after exchanging positions [j] and [j + 1]. *)
Definition swap_fun (f : Z → disk_color) (j : Z) : Z → disk_color :=
  λ p, if p =? j then f (j + 1) else if p =? j + 1 then f j else f p.

(** Colour functions of the alternating and of the grouped row. *)
Definition alt_fun : Z → disk_color :=
  λ p, if p mod 2 =? 0 then DISK_LIGHT else DISK_DARK.

Definition grouped_fun (k : Z) : Z → disk_color :=
  λ p, if p <? k then DISK_LIGHT else DISK_DARK.

Definition alternating_row (k : Z) : disk_state :=
  row_of (Z.to_nat (2 * k)) alt_fun.

Definition grouped_row (k : Z) : disk_state :=
  row_of (Z.to_nat (2 * k)) (grouped_fun k).

(** The rows a program can hold: built by the constructor, then changed by
    [swap] only. *)
Inductive row_state : disk_state → Prop :=
  | row_constructed light_count this :
      is_size_t light_count →
      disk_state_new light_count = Done this →
      row_state this
  | row_swapped this left_index this' :
      row_state this →
      swap this left_index = Done this' →
      row_state this'.


(** ** The states the sorters pass through, on a row of [2 * k] disks *)

(** [sort_left_to_right] at the head of pass [i]: [i] light disks, then
    [k - i] pairs (light, dark), then [i] dark disks. *)
Definition pass_fun (k i : Z) : Z → disk_color :=
  λ p, if p <? i then DISK_LIGHT
       else if 2 * k - i <=? p then DISK_DARK
       else if (p - i) mod 2 =? 0 then DISK_LIGHT else DISK_DARK.

(** [sort_left_to_right] in pass [i] with the inner loop at [j]: the dark
    disk that started the pass at [i + 1] has been carried to [j], the pairs
    behind it are regrouped and those ahead of it are untouched. *)
Definition left_to_right_fun (k i j : Z) : Z → disk_color :=
  λ p, if p <=? i then DISK_LIGHT
       else if p <? j then
              (if (p - i) mod 2 =? 1 then DISK_LIGHT else DISK_DARK)
       else if p =? j then DISK_DARK
       else if p <? 2 * k - i then
              (if (p - i) mod 2 =? 0 then DISK_LIGHT else DISK_DARK)
       else DISK_DARK.

(** [sort_lawnmower] at the head of backward sweep [t] (counted from 0):
    [t + 2] light disks, two dark disks, [k - 2 - t] pairs (light, dark),
    [t] dark disks. *)
Definition lawnmower_fun (k t : Z) : Z → disk_color :=
  λ p, if p <? t + 2 then DISK_LIGHT
       else if p <? t + 4 then DISK_DARK
       else if p <? 2 * k - t then
              (if (p - t) mod 2 =? 0 then DISK_LIGHT else DISK_DARK)
       else DISK_DARK.

(** [sort_lawnmower] in backward sweep [t] with the loop at [j]: positions
    below [j] are as the sweep found them, a light disk is at [j], positions
    above [j] are as the sweep leaves them. *)
Definition backward_fun (k t j : Z) : Z → disk_color :=
  λ p, if p <? j then lawnmower_fun k t p
       else if p =? j then DISK_LIGHT
       else lawnmower_fun k (t + 1) p.

(** Whether backward sweep [t] swaps when its loop is at [j]. *)
Definition backward_test (t j : Z) : bool :=
  (t + 3 <=? j) && ((j <? t + 5) || ((j - t) mod 2 =? 0)).

(** Swaps of backward sweep [t] from position [j] down to its end. *)
Definition backward_swaps (t j : Z) : Z :=
  if j <? t + 4 then Z.max 0 (j - t - 2) else 2 + (j - t - 4) / 2.

(** [0 + 1 + ... + m]. *)
Definition triangle (m : Z) : Z := m * (m + 1) / 2.

(** The row under construction after [t] iterations of the constructor's
    loop: alternating below [2 * t], light from there on. *)
Definition constructing_fun (t : Z) : Z → disk_color :=
  λ p, if p <? 2 * t then alt_fun p else DISK_LIGHT.

(** ** The sorters with the calls of [swap] recorded

    The same loops, with one more component: the list of the calls
    [before.swap(left_index)] made so far, each with the colours found at
    [left_index] and at its right neighbour at the moment of the call. *)

Record swap_event : Type :=
  { left_index : Z;
    left_color : option disk_color;
    right_color : option disk_color }.

Definition event_of (this : disk_state) (left_index : Z) : swap_event :=
  {| left_index := left_index;
     left_color := _colors this !! Z.to_nat left_index;
     right_color := _colors this !! Z.to_nat (sz_add left_index 1) |}.

Definition swap_traced (this : disk_state) (left_index : Z)
  (trace : list swap_event) : outcome (disk_state * list swap_event) :=
  this' ← swap this left_index;
  Done (this', trace ++ [event_of this left_index]).

Definition swap_if_dark_light_traced (before : disk_state) (j : Z)
  (swapCount : Z) (trace : list swap_event)
  : outcome (disk_state * Z * list swap_event) :=
  c ← get before j;
  if color_eqb c DISK_DARK then
    c' ← get before (sz_add j 1);
    if color_eqb c' DISK_LIGHT then
      '(before', trace') ← swap_traced before j trace;
      Done (before', int_incr swapCount, trace')
    else Done (before, swapCount, trace)
  else Done (before, swapCount, trace).

Definition swap_if_light_after_dark_traced (before : disk_state) (j : Z)
  (swapCount : Z) (trace : list swap_event)
  : outcome (disk_state * Z * list swap_event) :=
  c ← get before j;
  if color_eqb c DISK_LIGHT then
    c' ← get before (sz_sub j 1);
    if color_eqb c' DISK_DARK then
      '(before', trace') ← swap_traced before (sz_sub j 1) trace;
      Done (before', int_incr swapCount, trace')
    else Done (before, swapCount, trace)
  else Done (before, swapCount, trace).

Fixpoint left_to_right_inner_traced (fuel : nat) (totalCount i j : Z)
  (before : disk_state) (swapCount : Z) (trace : list swap_event)
  : outcome (disk_state * Z * list swap_event) :=
  if j <? sz_sub (sz_sub totalCount i) 1 then
    match fuel with
    | O => OutOfFuel
    | S fuel' =>
        '(before', swapCount', trace') ←
          swap_if_dark_light_traced before j swapCount trace;
        left_to_right_inner_traced fuel' totalCount i (sz_add j 1)
          before' swapCount' trace'
    end
  else Done (before, swapCount, trace).

Fixpoint left_to_right_outer_traced (fuel : nat) (lightCount totalCount i : Z)
  (before : disk_state) (swapCount : Z) (trace : list swap_event)
  : outcome (disk_state * Z * list swap_event) :=
  if i <? lightCount then
    match fuel with
    | O => OutOfFuel
    | S fuel' =>
        '(before', swapCount', trace') ←
          left_to_right_inner_traced (Z.to_nat totalCount) totalCount i
            (sz_add i 1) before swapCount trace;
        left_to_right_outer_traced fuel' lightCount totalCount (sz_add i 1)
          before' swapCount' trace'
    end
  else Done (before, swapCount, trace).

Definition sort_left_to_right_traced (before : disk_state)
  : outcome (disk_state * sorted_disks * list swap_event) :=
  alt ← is_alternating before;
  _ ← assert alt Assert_is_alternating;
  let swapCount := 0 in
  let lightCount := light_count before in
  let totalCount := total_count before in
  '(before', swapCount', trace) ←
    left_to_right_outer_traced (Z.to_nat totalCount) lightCount totalCount 0
      before swapCount [];
  Done (before', sorted_disks_new before' swapCount', trace).

Fixpoint lawnmower_backward_traced (fuel : nat) (i j : Z)
  (before : disk_state) (swapCount : Z) (trace : list swap_event)
  : outcome (disk_state * Z * list swap_event) :=
  if i <? j then
    match fuel with
    | O => OutOfFuel
    | S fuel' =>
        '(before', swapCount', trace') ←
          swap_if_light_after_dark_traced before j swapCount trace;
        lawnmower_backward_traced fuel' i (sz_sub j 1)
          before' swapCount' trace'
    end
  else Done (before, swapCount, trace).

Fixpoint lawnmower_forward_traced (fuel : nat) (totalCount i j : Z)
  (before : disk_state) (swapCount : Z) (trace : list swap_event)
  : outcome (Z * disk_state * Z * list swap_event) :=
  if j <? sz_sub totalCount i then
    match fuel with
    | O => OutOfFuel
    | S fuel' =>
        '(before1, swapCount1, trace1) ←
          swap_if_dark_light_traced before j swapCount trace;
        let i := sz_add i 1 in
        '(before2, swapCount2, trace2) ←
          lawnmower_backward_traced (Z.to_nat totalCount) i
            (sz_sub (sz_sub totalCount i) 1) before1 swapCount1 trace1;
        lawnmower_forward_traced fuel' totalCount i (sz_add j 1)
          before2 swapCount2 trace2
    end
  else Done (i, before, swapCount, trace).

Fixpoint lawnmower_outer_traced (fuel : nat) (lightCount totalCount i : Z)
  (before : disk_state) (swapCount : Z) (trace : list swap_event)
  : outcome (disk_state * Z * list swap_event) :=
  if i <? lightCount / 2 then
    match fuel with
    | O => OutOfFuel
    | S fuel' =>
        '(i', before', swapCount', trace') ←
          lawnmower_forward_traced (Z.to_nat totalCount) totalCount i
            (sz_add i 1) before swapCount trace;
        lawnmower_outer_traced fuel' lightCount totalCount (sz_add i' 1)
          before' swapCount' trace'
    end
  else Done (before, swapCount, trace).

Definition sort_lawnmower_traced (before : disk_state)
  : outcome (disk_state * sorted_disks * list swap_event) :=
  alt ← is_alternating before;
  _ ← assert alt Assert_is_alternating;
  let swapCount := 0 in
  let lightCount := light_count before in
  let totalCount := total_count before in
  '(before', swapCount', trace) ←
    lawnmower_outer_traced (Z.to_nat totalCount) lightCount totalCount 0
      before swapCount [];
  Done (before', sorted_disks_new before' swapCount', trace).

(** Forgetting the record of a traced run. *)
Definition untraced {A : Type} (m : outcome (A * list swap_event))
  : outcome A :=
  '(a, _) ← m; Done a.

(** A call of [swap] on a (dark, light) pair. *)
Definition dark_light_event (e : swap_event) : Prop :=
  left_color e = Some DISK_DARK ∧ right_color e = Some DISK_LIGHT.

(** ** The lawnmower algorithm as the specification words it

    An outer iteration is one whole forward sweep ([j] from [i + 1] to
    [total_count() - i - 1]), then [i++], then one whole backward sweep ([j]
    from [total_count() - i - 1] down to [i + 1]); the outer loop runs while
    [i < color_count() / 2].  The calls of [swap] are recorded, since the
    wording is about their order.

    Two points of the wording can be read in two ways, and the definition
    takes each as a parameter.  [shorten] is taken off the end of the forward
    sweep: 0 is the sweep as worded, whose last position has no right
    neighbour; 1 stops it one position earlier.  [step] is what the header
    of the outer loop adds to [i] after an iteration: 1 as in the source, 0
    if the increment between the sweeps is the only one. *)

Fixpoint reference_forward (fuel : nat) (bound j : Z)
  (before : disk_state) (swapCount : Z) (trace : list swap_event)
  : outcome (disk_state * Z * list swap_event) :=
  if j <? bound then
    match fuel with
    | O => OutOfFuel
    | S fuel' =>
        '(before', swapCount', trace') ←
          swap_if_dark_light_traced before j swapCount trace;
        reference_forward fuel' bound (sz_add j 1) before' swapCount' trace'
    end
  else Done (before, swapCount, trace).

Fixpoint reference_outer (fuel : nat)
  (shorten step lightCount totalCount i : Z)
  (before : disk_state) (swapCount : Z) (trace : list swap_event)
  : outcome (disk_state * Z * list swap_event) :=
  if i <? lightCount / 2 then
    match fuel with
    | O => OutOfFuel
    | S fuel' =>
        '(before1, swapCount1, trace1) ←
          reference_forward (Z.to_nat totalCount)
            (sz_sub (sz_sub totalCount i) shorten) (sz_add i 1)
            before swapCount trace;
        let i := sz_add i 1 in
        '(before2, swapCount2, trace2) ←
          lawnmower_backward_traced (Z.to_nat totalCount) i
            (sz_sub (sz_sub totalCount i) 1) before1 swapCount1 trace1;
        reference_outer fuel' shorten step lightCount totalCount
          (sz_add i step) before2 swapCount2 trace2
    end
  else Done (before, swapCount, trace).

Definition reference_lawnmower (shorten step : Z) (before : disk_state)
  : outcome (disk_state * sorted_disks * list swap_event) :=
  alt ← is_alternating before;
  _ ← assert alt Assert_is_alternating;
  '(before', swapCount', trace) ←
    reference_outer (Z.to_nat (total_count before)) shorten step
      (light_count before) (total_count before) 0 before 0 [];
  Done (before', sorted_disks_new before' swapCount', trace).

(** What a caller and an observer of the calls of [swap] see of a traced
    sort: the final row, the swap count, and the positions swapped, in
    order. *)
Definition traced_output
  (m : outcome (disk_state * sorted_disks * list swap_event))
  : outcome (string * Z * list Z) :=
  '(_, res, trace) ← m;
  Done (to_string (after res), swap_count res, map left_index trace).

(** What holds of the record and of [swapCount] all along a traced run:
    every recorded call met a (dark, light) pair, and [swapCount] has been
    incremented once for each of them. *)
Definition trace_ok (swapCount : Z) (trace : list swap_event) : Prop :=
  Forall dark_light_event trace ∧
  swapCount = int_wrap (Z.of_nat (length trace)).

(** The row and the count that a caller reads off a sort. *)
Definition sorted_output (m : outcome (disk_state * sorted_disks))
  : outcome (string * Z) :=
  '(_, res) ← m; Done (to_string (after res), swap_count res).

(** ** Measures on a row *)

#[global] Instance disk_state_eq_dec : EqDecision disk_state.
Proof. solve_decision. Defined.

(** The number of disks of colour [c]. *)
Fixpoint count_color (c : disk_color) (l : list disk_color) : nat :=
  match l with
  | [] => 0
  | x :: l' => (if color_eqb x c then 1 else 0) + count_color c l'
  end.

(** The number of inversions: pairs of positions, not necessarily adjacent,
    with a dark disk left of a light one. *)
Fixpoint inversions (l : list disk_color) : nat :=
  match l with
  | [] => 0
  | x :: l' =>
      (if color_eqb x DISK_DARK then count_color DISK_LIGHT l' else 0)
      + inversions l'
  end.

(** The label [to_string] writes for a disk. *)
Definition color_label (c : disk_color) : string :=
  if color_eqb c DISK_LIGHT then "L"%string else "D"%string.

(** What a run of the sorters' loops keeps, from the row [before] with the
    calls [trace] recorded to the row [before'] with [trace']: the disks
    (up to their order), and the sum of the inversions left and the swaps
    made. *)
Definition preserved (before before' : disk_state)
  (trace trace' : list swap_event) : Prop :=
  _colors before' ≡ₚ _colors before ∧
  (inversions (_colors before') + length trace' =
   inversions (_colors before) + length trace)%nat.
(** * Basic facts *)

Lemma size_t_modulus_val : size_t_modulus = 18446744073709551616.
Proof. reflexivity. Qed.

Lemma sz_wrap_small z : 0 <= z < size_t_modulus → sz_wrap z = z.
Proof. intros H. unfold sz_wrap. now apply Z.mod_small. Qed.

Lemma sz_add_small a b : 0 <= a + b < size_t_modulus → sz_add a b = a + b.
Proof. apply sz_wrap_small. Qed.

Lemma sz_sub_small a b : 0 <= a - b < size_t_modulus → sz_sub a b = a - b.
Proof. apply sz_wrap_small. Qed.

Lemma sz_mul_small a b : 0 <= a * b < size_t_modulus → sz_mul a b = a * b.
Proof. apply sz_wrap_small. Qed.

(** Rewrites the wrapped operations whose result is in range. *)
Ltac sz_simpl :=
  pose proof size_t_modulus_val;
  repeat match goal with
    | |- context [sz_add ?a ?b] => rewrite (sz_add_small a b) by lia
    | |- context [sz_sub ?a ?b] => rewrite (sz_sub_small a b) by lia
    | |- context [sz_mul ?a ?b] => rewrite (sz_mul_small a b) by lia
    end.

Lemma int_incr_wrap c : int_incr (int_wrap c) = int_wrap (c + 1).
Proof.
  unfold int_incr, int_wrap. f_equal.
  replace ((c + 2 ^ 31) mod 2 ^ 32 - 2 ^ 31 + 1 + 2 ^ 31)
    with ((c + 2 ^ 31) mod 2 ^ 32 + 1) by lia.
  rewrite Zplus_mod_idemp_l. f_equal. lia.
Qed.

Lemma int_wrap_0 : int_wrap 0 = 0.
Proof. reflexivity. Qed.

Lemma to_unsigned_int_wrap c : to_unsigned (int_wrap c) = c mod 2 ^ 32.
Proof.
  unfold to_unsigned, int_wrap.
  rewrite Zminus_mod_idemp_l. f_equal. lia.
Qed.

Lemma total_count_row_of n f : total_count (row_of n f) = Z.of_nat n.
Proof.
  unfold total_count, row_of. simpl. now rewrite length_fmap, length_seq.
Qed.

Lemma length_row_of n f : length (_colors (row_of n f)) = n.
Proof. unfold row_of. simpl. now rewrite length_fmap, length_seq. Qed.

Lemma lookup_row_of n f (p : nat) :
  (p < n)%nat → _colors (row_of n f) !! p = Some (f (Z.of_nat p)).
Proof.
  intros Hp. unfold row_of. simpl.
  rewrite list_lookup_fmap, lookup_seq_lt by done. done.
Qed.

Lemma get_row_of n f j :
  0 <= j < Z.of_nat n → get (row_of n f) j = Done (f j).
Proof.
  intros Hj. unfold get, is_index.
  rewrite total_count_row_of, lookup_row_of, Z2Nat.id by lia.
  now destruct (Z.ltb_spec j (Z.of_nat n)); [|lia].
Qed.

Lemma row_of_ext n f g :
  (∀ p, 0 <= p < Z.of_nat n → f p = g p) → row_of n f = row_of n g.
Proof.
  intros Hfg. unfold row_of. f_equal. apply list_eq. intros p.
  rewrite !list_lookup_fmap.
  destruct (decide (p < n)%nat) as [Hp|Hp].
  - rewrite lookup_seq_lt by done. simpl. f_equal. apply Hfg. lia.
  - now rewrite lookup_seq_ge by lia.
Qed.

Lemma swap_row_of n f j :
  0 <= j → j + 1 < Z.of_nat n → Z.of_nat n <= size_t_modulus →
  swap (row_of n f) j = Done (row_of n (swap_fun f j)).
Proof.
  intros Hj Hj1 Hn. unfold swap, is_index. rewrite total_count_row_of.
  sz_simpl.
  rewrite !lookup_row_of by lia. rewrite !Z2Nat.id by lia.
  destruct (Z.ltb_spec j (Z.of_nat n)); [|lia].
  destruct (Z.ltb_spec (j + 1) (Z.of_nat n)); [|lia].
  cbn [assert mbind outcome_bind]. f_equal.
  pose proof (length_row_of n f) as Hlen.
  pose proof (lookup_row_of n f) as Hl.
  set (l := _colors (row_of n f)) in *. clearbody l.
  unfold row_of. f_equal. apply list_eq. intros p.
  rewrite list_lookup_fmap.
  destruct (decide (p < n)%nat) as [Hp|Hp].
  - rewrite lookup_seq_lt by done. simpl. unfold swap_fun.
    destruct (decide (p = Z.to_nat (j + 1))) as [->|Hp1].
    + rewrite list_lookup_insert_eq by (rewrite length_insert; lia).
      rewrite Z2Nat.id by lia.
      destruct (Z.eqb_spec (j + 1) j); [lia|].
      now rewrite Z.eqb_refl.
    + rewrite list_lookup_insert_ne by done.
      destruct (decide (p = Z.to_nat j)) as [->|Hp0].
      * rewrite list_lookup_insert_eq by lia.
        rewrite Z2Nat.id by lia. now rewrite Z.eqb_refl.
      * rewrite list_lookup_insert_ne by done.
        rewrite Hl by done.
        destruct (Z.eqb_spec (Z.of_nat p) j); [lia|].
        destruct (Z.eqb_spec (Z.of_nat p) (j + 1)); [lia|]. done.
  - rewrite lookup_seq_ge by lia. simpl.
    apply lookup_ge_None_2. rewrite !length_insert. lia.
Qed.

(** Case analysis on the comparisons of a goal about colour functions. *)
Ltac arith := Z.div_mod_to_equations; lia.

Ltac color_cases :=
  repeat (cbv beta iota;
    match goal with
    | |- context [?a <? ?b] =>
        destruct (Z.ltb_spec a b); try (exfalso; arith)
    | |- context [?a <=? ?b] =>
        destruct (Z.leb_spec a b); try (exfalso; arith)
    | |- context [?a =? ?b] =>
        destruct (Z.eqb_spec a b); try (exfalso; arith)
    end);
  cbv beta iota; try reflexivity; try (exfalso; arith).

Lemma swap_if_dark_light_row n f j c :
  0 <= j → j + 1 < Z.of_nat n → Z.of_nat n <= size_t_modulus →
  swap_if_dark_light (row_of n f) j c =
  Done (if color_eqb (f j) DISK_DARK && color_eqb (f (j + 1)) DISK_LIGHT
        then (row_of n (swap_fun f j), int_incr c)
        else (row_of n f, c)).
Proof.
  intros Hj Hj1 Hn. unfold swap_if_dark_light. sz_simpl.
  rewrite !get_row_of by lia. cbn [mbind outcome_bind].
  destruct (color_eqb (f j) DISK_DARK); [|done].
  destruct (color_eqb (f (j + 1)) DISK_LIGHT); [|done].
  now rewrite swap_row_of by lia.
Qed.

Lemma swap_if_light_after_dark_row n f j c :
  1 <= j < Z.of_nat n → Z.of_nat n <= size_t_modulus →
  swap_if_light_after_dark (row_of n f) j c =
  Done (if color_eqb (f j) DISK_LIGHT && color_eqb (f (j - 1)) DISK_DARK
        then (row_of n (swap_fun f (j - 1)), int_incr c)
        else (row_of n f, c)).
Proof.
  intros Hj Hn. unfold swap_if_light_after_dark. sz_simpl.
  rewrite !get_row_of by lia. cbn [mbind outcome_bind].
  destruct (color_eqb (f j) DISK_LIGHT); [|done].
  destruct (color_eqb (f (j - 1)) DISK_DARK); [|done].
  now rewrite swap_row_of by lia.
Qed.

Lemma triangle_succ m : 0 <= m → triangle (m + 1) = triangle m + (m + 1).
Proof.
  intros Hm. unfold triangle.
  replace ((m + 1) * (m + 1 + 1)) with (m * (m + 1) + (m + 1) * 2) by lia.
  now rewrite Z.div_add by lia.
Qed.

Lemma triangle_0 : triangle 0 = 0.
Proof. reflexivity. Qed.

(** * [sort_left_to_right] on the alternating row of [2 * k] disks *)

Section LeftToRight.

Variable k : Z.
Hypothesis k_pos : 1 <= k.
Hypothesis k_size : 2 * k < size_t_modulus.

Local Abbreviation row := (row_of (Z.to_nat (2 * k))).

Lemma alternating_row_pass_0 : alternating_row k = row (pass_fun k 0).
Proof.
  apply row_of_ext. intros p Hp. unfold alt_fun, pass_fun. color_cases.
Qed.

Lemma pass_fun_inner_start i :
  0 <= i < k → row (pass_fun k i) = row (left_to_right_fun k i (i + 1)).
Proof.
  intros Hi. apply row_of_ext. intros p Hp.
  unfold pass_fun, left_to_right_fun. color_cases.
Qed.

Lemma pass_fun_inner_end i :
  0 <= i < k →
  row (left_to_right_fun k i (2 * k - i - 1)) = row (pass_fun k (i + 1)).
Proof.
  intros Hi. apply row_of_ext. intros p Hp.
  unfold pass_fun, left_to_right_fun. color_cases.
Qed.

Lemma pass_fun_grouped : row (pass_fun k k) = grouped_row k.
Proof.
  apply row_of_ext. intros p Hp. unfold pass_fun, grouped_fun. color_cases.
Qed.

Lemma left_to_right_step_swap i j :
  0 <= i < k → i + 1 <= j < 2 * k - i - 1 → (j + 1 - i) mod 2 = 0 →
  row (swap_fun (left_to_right_fun k i j) j) =
  row (left_to_right_fun k i (j + 1)).
Proof.
  intros Hi Hj Hpar. apply row_of_ext. intros p Hp.
  unfold swap_fun, left_to_right_fun. color_cases.
Qed.

Lemma left_to_right_step_stay i j :
  0 <= i < k → i + 1 <= j < 2 * k - i - 1 → (j + 1 - i) mod 2 ≠ 0 →
  row (left_to_right_fun k i j) = row (left_to_right_fun k i (j + 1)).
Proof.
  intros Hi Hj Hpar. apply row_of_ext. intros p Hp.
  unfold left_to_right_fun. color_cases.
Qed.

Lemma left_to_right_fun_test i j :
  0 <= i < k → i + 1 <= j < 2 * k - i - 1 →
  color_eqb (left_to_right_fun k i j j) DISK_DARK &&
  color_eqb (left_to_right_fun k i j (j + 1)) DISK_LIGHT =
  ((j + 1 - i) mod 2 =? 0).
Proof.
  intros Hi Hj. unfold left_to_right_fun. color_cases.
Qed.

Lemma left_to_right_inner_spec i (m : nat) :
  0 <= i < k →
  ∀ fuel j c,
    Z.of_nat m = 2 * k - i - 1 - j → (m ≤ fuel)%nat → i + 1 <= j →
    left_to_right_inner fuel (2 * k) i j
      (row (left_to_right_fun k i j)) (int_wrap c) =
    Done (row (pass_fun k (i + 1)),
          int_wrap (c + (k - i - 1) - (j - i) / 2)).
Proof.
  intros Hi. induction m as [|m IH]; intros fuel j c Hm Hfuel Hj.
  - assert (j = 2 * k - i - 1) as -> by lia.
    destruct fuel; simpl; sz_simpl;
      (destruct (Z.ltb_spec (2 * k - i - 1) (2 * k - i - 1)); [lia|]);
      rewrite pass_fun_inner_end by lia; do 3 f_equal; arith.
  - destruct fuel as [|fuel]; [lia|]. simpl. sz_simpl.
    destruct (Z.ltb_spec j (2 * k - i - 1)); [|lia].
    rewrite swap_if_dark_light_row by lia.
    rewrite left_to_right_fun_test by lia.
    cbn [mbind outcome_bind].
    destruct (Z.eqb_spec ((j + 1 - i) mod 2) 0) as [Hpar|Hpar].
    + rewrite left_to_right_step_swap, int_incr_wrap by lia.
      rewrite IH by lia. do 3 f_equal. arith.
    + rewrite left_to_right_step_stay by lia.
      rewrite IH by lia. do 3 f_equal. arith.
Qed.

Lemma left_to_right_outer_spec (m : nat) :
  ∀ fuel i c,
    Z.of_nat m = k - i → (m ≤ fuel)%nat → 0 <= i →
    left_to_right_outer fuel k (2 * k) i (row (pass_fun k i)) (int_wrap c) =
    Done (grouped_row k, int_wrap (c + triangle (k - i - 1))).
Proof.
  induction m as [|m IH]; intros fuel i c Hm Hfuel Hi.
  - replace i with k by lia.
    destruct fuel; simpl;
      (destruct (Z.ltb_spec k k); [lia|]);
      rewrite pass_fun_grouped; do 3 f_equal;
      replace (k - k - 1) with (-1) by lia;
      change (triangle (-1)) with 0; lia.
  - destruct fuel as [|fuel]; [lia|]. simpl. sz_simpl.
    destruct (Z.ltb_spec i k); [|lia].
    rewrite pass_fun_inner_start by lia.
    rewrite (left_to_right_inner_spec i (Z.to_nat (2 * k - i - 1 - (i + 1))))
      by lia.
    cbn [mbind outcome_bind].
    rewrite IH by lia. do 3 f_equal.
    replace (k - i - 1) with (k - (i + 1) - 1 + 1) at 2 by lia.
    destruct (Z.eq_dec (k - (i + 1) - 1) (-1)) as [He|Hne].
    + rewrite He. change (triangle (-1)) with 0.
      change (triangle (-1 + 1)) with 0. arith.
    + rewrite triangle_succ by lia. arith.
Qed.

End LeftToRight.

(** * [sort_lawnmower] on the alternating row of [2 * k] disks *)

Section Lawnmower.

Variable k : Z.
Hypothesis k_pos : 2 <= k.
Hypothesis k_size : 2 * k < size_t_modulus.

Local Abbreviation row := (row_of (Z.to_nat (2 * k))).

(** The grouped row has no (dark, light) pair: no test succeeds on it. *)
Lemma grouped_dark_light j :
  color_eqb (grouped_fun k j) DISK_DARK &&
  color_eqb (grouped_fun k (j + 1)) DISK_LIGHT = false.
Proof. unfold grouped_fun. color_cases. Qed.

Lemma grouped_light_after_dark j :
  color_eqb (grouped_fun k j) DISK_LIGHT &&
  color_eqb (grouped_fun k (j - 1)) DISK_DARK = false.
Proof. unfold grouped_fun. color_cases. Qed.

Lemma lawnmower_backward_grouped (m : nat) :
  ∀ fuel i j c,
    Z.of_nat m = Z.max 0 (j - i) → (m ≤ fuel)%nat → 0 <= i → j < 2 * k →
    lawnmower_backward fuel i j (grouped_row k) c = Done (grouped_row k, c).
Proof.
  induction m as [|m IH]; intros fuel i j c Hm Hfuel Hi Hj.
  - destruct fuel; simpl; now destruct (Z.ltb_spec i j); [lia|].
  - destruct fuel as [|fuel]; [lia|]. simpl.
    destruct (Z.ltb_spec i j); [|lia].
    unfold grouped_row.
    rewrite swap_if_light_after_dark_row, grouped_light_after_dark by lia.
    cbn [mbind outcome_bind]. sz_simpl. apply IH; lia.
Qed.

Lemma lawnmower_forward_grouped (m : nat) :
  ∀ fuel t c,
    Z.of_nat m = k - t → (m ≤ fuel)%nat → 0 <= t →
    lawnmower_forward fuel (2 * k) t (t + 1) (grouped_row k) c =
    Done (k, grouped_row k, c).
Proof.
  induction m as [|m IH]; intros fuel t c Hm Hfuel Ht.
  - assert (t = k) as -> by lia.
    destruct fuel; simpl; sz_simpl;
      now destruct (Z.ltb_spec (k + 1) (2 * k - k)); [lia|].
  - destruct fuel as [|fuel]; [lia|]. simpl. sz_simpl.
    destruct (Z.ltb_spec (t + 1) (2 * k - t)); [|lia].
    unfold grouped_row at 1.
    rewrite swap_if_dark_light_row, grouped_dark_light by lia.
    cbn [mbind outcome_bind].
    rewrite (lawnmower_backward_grouped
               (Z.to_nat (Z.max 0 (2 * k - (t + 1) - 1 - (t + 1))))) by lia.
    cbn [mbind outcome_bind]. apply IH; lia.
Qed.

(** One backward sweep. *)
Lemma backward_fun_start t :
  0 <= t <= k - 3 →
  row (lawnmower_fun k t) = row (backward_fun k t (2 * k - t - 2)).
Proof.
  intros Ht. apply row_of_ext. intros p Hp.
  unfold backward_fun, lawnmower_fun. color_cases.
Qed.

Lemma backward_fun_end t :
  0 <= t <= k - 3 →
  row (backward_fun k t (t + 1)) = row (lawnmower_fun k (t + 1)).
Proof.
  intros Ht. apply row_of_ext. intros p Hp.
  unfold backward_fun, lawnmower_fun. color_cases.
Qed.

Lemma backward_fun_test t j :
  0 <= t <= k - 3 → t + 2 <= j <= 2 * k - t - 2 →
  color_eqb (backward_fun k t j j) DISK_LIGHT &&
  color_eqb (backward_fun k t j (j - 1)) DISK_DARK = backward_test t j.
Proof.
  intros Ht Hj. unfold backward_test, backward_fun, lawnmower_fun.
  color_cases.
Qed.

Lemma backward_step_swap t j :
  0 <= t <= k - 3 → t + 2 <= j <= 2 * k - t - 2 →
  backward_test t j = true →
  row (swap_fun (backward_fun k t j) (j - 1)) =
  row (backward_fun k t (j - 1)) ∧
  backward_swaps t j = backward_swaps t (j - 1) + 1.
Proof.
  intros Ht Hj. unfold backward_test. intros Htest.
  apply andb_prop in Htest as [H1 H2]. apply orb_prop in H2.
  apply Z.leb_le in H1. rewrite Z.ltb_lt, Z.eqb_eq in H2.
  split.
  - apply row_of_ext. intros p Hp.
    unfold swap_fun, backward_fun, lawnmower_fun. color_cases.
  - unfold backward_swaps. color_cases; arith.
Qed.

Lemma backward_step_stay t j :
  0 <= t <= k - 3 → t + 2 <= j <= 2 * k - t - 2 →
  backward_test t j = false →
  row (backward_fun k t j) = row (backward_fun k t (j - 1)) ∧
  backward_swaps t j = backward_swaps t (j - 1).
Proof.
  intros Ht Hj. unfold backward_test. intros Htest.
  apply andb_false_iff in Htest.
  rewrite orb_false_iff, Z.leb_gt, Z.ltb_ge, Z.eqb_neq in Htest.
  split.
  - apply row_of_ext. intros p Hp.
    unfold backward_fun, lawnmower_fun. color_cases.
  - unfold backward_swaps. color_cases; arith.
Qed.

Lemma lawnmower_backward_spec t (m : nat) :
  0 <= t <= k - 3 →
  ∀ fuel j c,
    Z.of_nat m = j - (t + 1) → (m ≤ fuel)%nat → j <= 2 * k - t - 2 →
    lawnmower_backward fuel (t + 1) j (row (backward_fun k t j))
      (int_wrap c) =
    Done (row (lawnmower_fun k (t + 1)),
          int_wrap (c + backward_swaps t j)).
Proof.
  intros Ht. induction m as [|m IH]; intros fuel j c Hm Hfuel Hj.
  - assert (j = t + 1) as -> by lia.
    destruct fuel; simpl;
      (destruct (Z.ltb_spec (t + 1) (t + 1)); [lia|]);
      rewrite backward_fun_end by lia; do 3 f_equal;
      unfold backward_swaps; color_cases; lia.
  - destruct fuel as [|fuel]; [lia|]. simpl.
    destruct (Z.ltb_spec (t + 1) j); [|lia].
    rewrite swap_if_light_after_dark_row, backward_fun_test by lia.
    sz_simpl. cbn [mbind outcome_bind].
    destruct (backward_test t j) eqn:Htest.
    + destruct (backward_step_swap t j) as [-> ->]; [lia..|done|].
      rewrite int_incr_wrap, IH by lia. do 3 f_equal. lia.
    + destruct (backward_step_stay t j) as [-> ->]; [lia..|done|].
      now rewrite IH by lia.
Qed.

Lemma lawnmower_backward_sweep t fuel c :
  0 <= t <= k - 3 → 2 * k <= Z.of_nat fuel →
  lawnmower_backward fuel (t + 1) (2 * k - t - 2) (row (lawnmower_fun k t))
    (int_wrap c) =
  Done (row (lawnmower_fun k (t + 1)), int_wrap (c + (k - t - 1))).
Proof.
  intros Ht Hfuel. rewrite backward_fun_start by lia.
  rewrite (lawnmower_backward_spec t (Z.to_nat (2 * k - t - 2 - (t + 1))))
    by lia.
  do 3 f_equal. unfold backward_swaps. color_cases. arith.
Qed.

Lemma lawnmower_fun_grouped :
  row (lawnmower_fun k (k - 2)) = grouped_row k.
Proof.
  apply row_of_ext. intros p Hp. unfold lawnmower_fun, grouped_fun.
  color_cases.
Qed.

Lemma lawnmower_fun_test t :
  0 <= t →
  color_eqb (lawnmower_fun k t (t + 1)) DISK_DARK &&
  color_eqb (lawnmower_fun k t (t + 1 + 1)) DISK_LIGHT = false.
Proof. intros Ht. unfold lawnmower_fun. color_cases. Qed.

(** The forward loop from its second iteration on. *)
Lemma lawnmower_forward_spec (m : nat) :
  ∀ fuel t c,
    Z.of_nat m = k - 2 - t → 2 * k <= Z.of_nat fuel + t → 1 <= t →
    lawnmower_forward fuel (2 * k) t (t + 1) (row (lawnmower_fun k t))
      (int_wrap c) =
    Done (k, grouped_row k, int_wrap (c + triangle (k - t - 1) - 1)).
Proof.
  induction m as [|m IH]; intros fuel t c Hm Hfuel Ht.
  - assert (t = k - 2) as -> by lia.
    rewrite lawnmower_fun_grouped.
    rewrite (lawnmower_forward_grouped 2%nat) by lia.
    do 3 f_equal. replace (k - (k - 2) - 1) with 1 by lia.
    change (triangle 1) with 1. lia.
  - destruct fuel as [|fuel]; [lia|]. simpl. sz_simpl.
    destruct (Z.ltb_spec (t + 1) (2 * k - t)); [|lia].
    rewrite swap_if_dark_light_row, lawnmower_fun_test by lia.
    cbn [mbind outcome_bind].
    replace (2 * k - (t + 1) - 1) with (2 * k - t - 2) by lia.
    rewrite lawnmower_backward_sweep by lia.
    cbn [mbind outcome_bind].
    rewrite IH by lia. do 3 f_equal.
    replace (k - t - 1) with (k - (t + 1) - 1 + 1) at 2 by lia.
    rewrite triangle_succ by lia. lia.
Qed.

(** The first iteration of the forward loop finds (dark, light) at 1. *)
Lemma lawnmower_first_swap :
  row (swap_fun alt_fun 1) = row (lawnmower_fun k 0).
Proof.
  apply row_of_ext. intros p Hp. unfold swap_fun, alt_fun, lawnmower_fun.
  color_cases.
Qed.

Lemma lawnmower_forward_alternating fuel c :
  2 * k <= Z.of_nat fuel →
  lawnmower_forward fuel (2 * k) 0 1 (alternating_row k) (int_wrap c) =
  Done (k, grouped_row k, int_wrap (c + triangle (k - 1))).
Proof.
  intros Hfuel. destruct fuel as [|fuel]; [lia|]. simpl. sz_simpl.
  destruct (Z.ltb_spec 1 (2 * k - 0)); [|lia].
  unfold alternating_row.
  rewrite swap_if_dark_light_row by lia.
  change (color_eqb (alt_fun 1) DISK_DARK &&
          color_eqb (alt_fun (1 + 1)) DISK_LIGHT) with true.
  cbn [mbind outcome_bind]. rewrite lawnmower_first_swap, int_incr_wrap.
  destruct (Z.eq_dec k 2) as [Hk2|Hk2].
  - replace (lawnmower_fun k 0) with (lawnmower_fun k (k - 2))
      by (f_equal; lia).
    rewrite lawnmower_fun_grouped.
    rewrite (lawnmower_backward_grouped
               (Z.to_nat (Z.max 0 (2 * k - 1 - 1 - 1)))) by lia.
    cbn [mbind outcome_bind].
    rewrite (lawnmower_forward_grouped 1%nat fuel 1) by lia.
    do 3 f_equal. rewrite Hk2. change (triangle (2 - 1)) with 1. lia.
  - replace (2 * k - (0 + 1) - 1) with (2 * k - 0 - 2) by lia.
    rewrite (lawnmower_backward_sweep 0) by lia.
    cbn [mbind outcome_bind]. change (0 + 1) with 1.
    rewrite (lawnmower_forward_spec (Z.to_nat (k - 2 - 1)) fuel 1) by lia.
    do 3 f_equal.
    replace (triangle (k - 1)) with (triangle (k - 1 - 1 + 1))
      by (f_equal; lia).
    rewrite triangle_succ by lia. lia.
Qed.

Lemma lawnmower_outer_alternating fuel :
  2 * k <= Z.of_nat fuel →
  lawnmower_outer fuel k (2 * k) 0 (alternating_row k) (int_wrap 0) =
  Done (grouped_row k, int_wrap (triangle (k - 1))).
Proof.
  intros Hfuel. destruct fuel as [|fuel]; [lia|]. simpl. sz_simpl.
  destruct (Z.ltb_spec 0 (k / 2)); [|arith].
  rewrite lawnmower_forward_alternating by lia.
  cbn [mbind outcome_bind]. sz_simpl.
  destruct fuel; simpl; now destruct (Z.ltb_spec (k + 1) (k / 2)); [arith|].
Qed.

End Lawnmower.

(** * The constructor and the two format checks *)

Lemma replicate_row_of n c : replicate n c = _colors (row_of n (λ _, c)).
Proof.
  apply list_eq. intros p. destruct (decide (p < n)%nat).
  - rewrite lookup_row_of by done. now apply lookup_replicate_2.
  - rewrite !lookup_ge_None_2; [done|rewrite length_row_of|
                                 rewrite length_replicate]; lia.
Qed.

Lemma insert_row_of n f i c :
  0 <= i →
  <[Z.to_nat i := c]> (_colors (row_of n f)) =
  _colors (row_of n (λ p, if p =? i then c else f p)).
Proof.
  intros Hi. apply list_eq. intros p. destruct (decide (p < n)%nat).
  - rewrite lookup_row_of by done.
    destruct (decide (p = Z.to_nat i)) as [->|Hne].
    + rewrite list_lookup_insert_eq by (rewrite length_row_of; lia).
      rewrite Z2Nat.id by lia. now rewrite Z.eqb_refl.
    + rewrite list_lookup_insert_ne, lookup_row_of by done.
      now destruct (Z.eqb_spec (Z.of_nat p) i); [lia|].
  - rewrite !lookup_ge_None_2; [done|rewrite length_row_of|
      rewrite length_insert, length_row_of]; lia.
Qed.

Lemma disk_state_loop_unfold fuel i cs :
  disk_state_loop fuel i cs =
  if i <? Z.of_nat (length cs) then
    match fuel with
    | O => OutOfFuel
    | S fuel' =>
        disk_state_loop fuel' (sz_add i 2) (<[Z.to_nat i := DISK_DARK]> cs)
    end
  else Done cs.
Proof. now destruct fuel. Qed.

Section Construction.

Variable k : Z.
Hypothesis k_pos : 1 <= k.
Hypothesis k_size : 2 * k < size_t_modulus.

Local Abbreviation row := (row_of (Z.to_nat (2 * k))).

Lemma disk_state_loop_spec (m : nat) :
  ∀ fuel t,
    Z.of_nat m = k - t → (m ≤ fuel)%nat → 0 <= t →
    disk_state_loop fuel (2 * t + 1) (_colors (row (constructing_fun t))) =
    Done (_colors (alternating_row k)).
Proof.
  induction m as [|m IH]; intros fuel t Hm Hfuel Ht;
    rewrite disk_state_loop_unfold, length_row_of.
  - destruct (Z.ltb_spec (2 * t + 1) (Z.of_nat (Z.to_nat (2 * k))));
      [lia|].
    do 2 f_equal. apply row_of_ext. intros p Hp.
    unfold constructing_fun. color_cases.
  - destruct (Z.ltb_spec (2 * t + 1) (Z.of_nat (Z.to_nat (2 * k))));
      [|lia].
    destruct fuel as [|fuel]; [lia|]. sz_simpl.
    rewrite insert_row_of by lia.
    replace (2 * t + 1 + 2) with (2 * (t + 1) + 1) by lia.
    rewrite <- (IH fuel (t + 1)) by lia. do 2 f_equal.
    apply row_of_ext. intros p Hp.
    unfold constructing_fun, alt_fun. color_cases.
Qed.

Lemma disk_state_new_alternating :
  disk_state_new k = Done (alternating_row k).
Proof.
  unfold disk_state_new. sz_simpl.
  unfold dark_count, total_count. cbn [_colors].
  rewrite length_replicate.
  destruct (Z.ltb_spec 0 (Z.of_nat (Z.to_nat (k * 2)) / 2)); [|arith].
  cbn [assert mbind outcome_bind].
  replace (k * 2) with (2 * k) by lia. rewrite replicate_row_of.
  pose proof (disk_state_loop_spec (Z.to_nat k) (Z.to_nat (2 * k)) 0) as Hl.
  change (2 * 0 + 1) with 1 in Hl.
  replace (row (λ _, DISK_LIGHT)) with (row (constructing_fun 0)).
  - rewrite Hl by lia. now destruct (alternating_row k).
  - apply row_of_ext. intros p Hp. unfold constructing_fun. color_cases.
Qed.

Lemma is_alternating_loop_alternating (m : nat) :
  ∀ fuel t,
    Z.of_nat m = k - t → (m ≤ fuel)%nat → 0 <= t →
    is_alternating_loop fuel (alternating_row k) (2 * k) (2 * t) =
    Done true.
Proof.
  induction m as [|m IH]; intros fuel t Hm Hfuel Ht.
  - destruct fuel; simpl; sz_simpl;
      now destruct (Z.ltb_spec (2 * t) (2 * k - 1)); [lia|].
  - destruct fuel as [|fuel]; [lia|]. simpl. sz_simpl.
    destruct (Z.ltb_spec (2 * t) (2 * k - 1)); [|lia].
    unfold alternating_row in *. rewrite !get_row_of by lia.
    cbn [mbind outcome_bind].
    replace (alt_fun (2 * t)) with DISK_LIGHT
      by (unfold alt_fun; color_cases).
    replace (alt_fun (2 * t + 1)) with DISK_DARK
      by (unfold alt_fun; color_cases).
    cbn [color_eqb negb mbind outcome_bind].
    replace (2 * t + 2) with (2 * (t + 1)) by lia. apply IH; lia.
Qed.

Lemma is_alternating_alternating :
  is_alternating (alternating_row k) = Done true.
Proof.
  unfold is_alternating, alternating_row.
  rewrite total_count_row_of, length_row_of, Z2Nat.id by lia.
  apply (is_alternating_loop_alternating (Z.to_nat k) _ 0); lia.
Qed.

Lemma is_sorted_loop_grouped (m : nat) :
  ∀ fuel i,
    Z.of_nat m = k - i → (m ≤ fuel)%nat → 0 <= i →
    is_sorted_loop fuel (grouped_row k) k i = Done true.
Proof.
  induction m as [|m IH]; intros fuel i Hm Hfuel Hi.
  - destruct fuel; simpl; now destruct (Z.ltb_spec i k); [lia|].
  - destruct fuel as [|fuel]; [lia|]. simpl. sz_simpl.
    destruct (Z.ltb_spec i k); [|lia].
    unfold grouped_row in *. rewrite !get_row_of by lia.
    cbn [mbind outcome_bind].
    replace (grouped_fun k i) with DISK_LIGHT
      by (unfold grouped_fun; color_cases).
    replace (grouped_fun k (i + k)) with DISK_DARK
      by (unfold grouped_fun; color_cases).
    cbn [color_eqb negb mbind outcome_bind]. apply IH; lia.
Qed.

Lemma light_count_row f : light_count (row f) = k.
Proof.
  unfold light_count, dark_count. rewrite total_count_row_of. arith.
Qed.

Lemma is_sorted_grouped : is_sorted (grouped_row k) = Done true.
Proof.
  unfold is_sorted, grouped_row.
  rewrite light_count_row, length_row_of.
  apply (is_sorted_loop_grouped (Z.to_nat k) _ 0); lia.
Qed.

End Construction.

(** * The sorters on the alternating row *)

Lemma alternating_row_1 : alternating_row 1 = grouped_row 1.
Proof. reflexivity. Qed.

Lemma light_count_alternating k :
  1 <= k → light_count (alternating_row k) = k.
Proof. intros Hk. now apply light_count_row. Qed.

Lemma total_count_alternating k :
  1 <= k → total_count (alternating_row k) = 2 * k.
Proof.
  intros Hk. unfold alternating_row. rewrite total_count_row_of. lia.
Qed.

Lemma sort_left_to_right_alternating k :
  1 <= k → 2 * k < size_t_modulus →
  sort_left_to_right (alternating_row k) =
  Done (grouped_row k,
        sorted_disks_new (grouped_row k) (int_wrap (triangle (k - 1)))).
Proof.
  intros Hk Hsize. unfold sort_left_to_right.
  rewrite is_alternating_alternating by done.
  cbn [assert mbind outcome_bind].
  rewrite light_count_alternating, total_count_alternating by done.
  pose proof (left_to_right_outer_spec k Hk Hsize (Z.to_nat k)
                (Z.to_nat (2 * k)) 0 0) as Houter.
  rewrite <- alternating_row_pass_0, int_wrap_0 in Houter by done.
  rewrite Houter by lia. cbn [mbind outcome_bind].
  replace (k - 0 - 1) with (k - 1) by lia. now rewrite Z.add_0_l.
Qed.

Lemma sort_lawnmower_alternating k :
  1 <= k → 2 * k < size_t_modulus →
  sort_lawnmower (alternating_row k) =
  Done (grouped_row k,
        sorted_disks_new (grouped_row k) (int_wrap (triangle (k - 1)))).
Proof.
  intros Hk Hsize. unfold sort_lawnmower.
  rewrite is_alternating_alternating by done.
  cbn [assert mbind outcome_bind].
  rewrite light_count_alternating, total_count_alternating by done.
  destruct (Z.eq_dec k 1) as [->|Hk1]; [reflexivity|].
  pose proof (lawnmower_outer_alternating k ltac:(lia) Hsize
                (Z.to_nat (2 * k))) as Houter.
  rewrite int_wrap_0 in Houter. now rewrite Houter by lia.
Qed.

(** * The rows a program can hold *)

Lemma get_Done this i c :
  get this i = Done c →
  i < total_count this ∧ _colors this !! Z.to_nat i = Some c.
Proof.
  unfold get, is_index. destruct (Z.ltb_spec i (total_count this));
    cbn [assert mbind outcome_bind]; [|done].
  destruct (_colors this !! Z.to_nat i); [|done].
  intros [= ->]. done.
Qed.

Lemma swap_length this i this' :
  swap this i = Done this' →
  length (_colors this') = length (_colors this).
Proof.
  unfold swap. destruct (is_index this i); cbn [assert mbind outcome_bind];
    [|done].
  destruct (is_index this (sz_add i 1)); cbn [assert mbind outcome_bind];
    [|done].
  destruct (_colors this !! Z.to_nat i); [|done].
  destruct (_colors this !! Z.to_nat (sz_add i 1)); [|done].
  intros [= <-]. cbn [_colors]. now rewrite !length_insert.
Qed.

Lemma total_count_swap this i this' :
  swap this i = Done this' → total_count this' = total_count this.
Proof. intros H. unfold total_count. now rewrite (swap_length _ _ _ H). Qed.

(** Whatever the argument, the constructor builds an alternating row of
    [2 * k] disks with [1 <= k], or aborts. *)
Lemma disk_state_new_Done light_count this :
  is_size_t light_count →
  disk_state_new light_count = Done this →
  ∃ k, 1 <= k ∧ 2 * k < size_t_modulus ∧ this = alternating_row k.
Proof.
  intros Hlc Hnew. pose proof size_t_modulus_val as Hmod.
  unfold is_size_t in Hlc. rewrite Hmod in Hlc.
  set (k := light_count mod 2 ^ 63).
  assert (Hk : 0 <= k < 2 ^ 63) by (apply Z.mod_pos_bound; lia).
  assert (Hmul : sz_mul light_count 2 = 2 * k).
  { unfold sz_mul, sz_wrap, k. rewrite Hmod.
    change 18446744073709551616 with (2 ^ 63 * 2).
    rewrite Zmult_mod_distr_r. lia. }
  assert (Hsame : disk_state_new light_count = disk_state_new k).
  { unfold disk_state_new. rewrite Hmul.
    rewrite sz_mul_small by (rewrite Hmod; lia).
    now replace (k * 2) with (2 * k) by lia. }
  destruct (Z.eq_dec k 0) as [Hk0|Hk0].
  - rewrite Hsame, Hk0 in Hnew. discriminate.
  - exists k. change (2 ^ 63) with 9223372036854775808 in Hk.
    split; [lia|]. split; [lia|].
    rewrite Hsame, disk_state_new_alternating in Hnew by lia.
    congruence.
Qed.

Lemma row_state_length this :
  row_state this →
  ∃ k, 1 <= k ∧ 2 * k < size_t_modulus ∧
       length (_colors this) = Z.to_nat (2 * k).
Proof.
  induction 1 as [lc this Hlc Hnew|this i this' _ IH Hswap].
  - destruct (disk_state_new_Done lc this Hlc Hnew) as (k & ? & ? & ->).
    exists k. unfold alternating_row. now rewrite length_row_of.
  - destruct IH as (k & ? & ? & ?). exists k.
    now rewrite (swap_length _ _ _ Hswap).
Qed.

Lemma row_state_alternating k :
  1 <= k → 2 * k < size_t_modulus → row_state (alternating_row k).
Proof.
  intros Hk Hsize. apply (row_constructed k).
  - unfold is_size_t. lia.
  - now apply disk_state_new_alternating.
Qed.

Lemma is_alternating_loop_true this k fuel :
  1 <= k → 2 * k < size_t_modulus →
  ∀ t, 0 <= t →
    is_alternating_loop fuel this (2 * k) (2 * t) = Done true →
    ∀ p, 2 * t <= p < 2 * k →
      _colors this !! Z.to_nat p = Some (alt_fun p).
Proof.
  intros Hk Hsize.
  induction fuel as [|fuel IH]; intros t Ht; simpl; sz_simpl.
  - destruct (Z.ltb_spec (2 * t) (2 * k - 1)); [done|]. lia.
  - destruct (Z.ltb_spec (2 * t) (2 * k - 1)); [|lia]. sz_simpl.
    destruct (get this (2 * t)) as [c| |] eqn:Hc;
      cbn [mbind outcome_bind]; [|done..].
    destruct c; cbn [color_eqb negb]; [|done].
    destruct (get this (2 * t + 1)) as [c'| |] eqn:Hc';
      cbn [mbind outcome_bind]; [|done..].
    destruct c'; cbn [color_eqb negb]; [done|].
    replace (2 * t + 2) with (2 * (t + 1)) by lia.
    intros Hloop p Hp.
    apply get_Done in Hc as [_ Hc]. apply get_Done in Hc' as [_ Hc'].
    destruct (Z.eq_dec p (2 * t)) as [->|].
    { rewrite Hc. unfold alt_fun. color_cases. }
    destruct (Z.eq_dec p (2 * t + 1)) as [->|].
    { rewrite Hc'. unfold alt_fun. color_cases. }
    apply (IH (t + 1)); [lia|done|lia].
Qed.

(** An alternating row of even length is the row the constructor builds. *)
Lemma is_alternating_true this k :
  1 <= k → 2 * k < size_t_modulus →
  length (_colors this) = Z.to_nat (2 * k) →
  is_alternating this = Done true →
  this = alternating_row k.
Proof.
  intros Hk Hsize Hlen Halt. unfold is_alternating, total_count in Halt.
  rewrite Hlen, Z2Nat.id in Halt by lia.
  pose proof (is_alternating_loop_true this k _ Hk Hsize 0 ltac:(lia) Halt)
    as Hall.
  destruct this as [cs]. unfold alternating_row, row_of. f_equal.
  cbn [_colors] in *. apply list_eq. intros p.
  rewrite list_lookup_fmap.
  destruct (decide (p < Z.to_nat (2 * k))%nat).
  - rewrite lookup_seq_lt by done. simpl.
    rewrite <- (Nat2Z.id p) at 1. apply Hall. lia.
  - rewrite lookup_seq_ge by lia. simpl. apply lookup_ge_None_2. lia.
Qed.

Lemma row_state_is_alternating this :
  row_state this → is_alternating this = Done true →
  ∃ k, 1 <= k ∧ 2 * k < size_t_modulus ∧ this = alternating_row k.
Proof.
  intros Hrow Halt.
  destruct (row_state_length this Hrow) as (k & Hk & Hsize & Hlen).
  exists k. eauto using is_alternating_true.
Qed.

(** * The checks on the other format *)

Lemma is_sorted_alternating k :
  2 <= k → 2 * k < size_t_modulus →
  is_sorted (alternating_row k) = Done false.
Proof.
  intros Hk Hsize. unfold is_sorted. rewrite light_count_alternating by lia.
  unfold alternating_row. rewrite length_row_of.
  assert (∃ fuel, Z.to_nat (2 * k) = S (S fuel)) as [fuel Hfuel]
    by (exists (Z.to_nat (2 * k) - 2)%nat; lia).
  rewrite Hfuel at 1. simpl. sz_simpl.
  destruct (Z.ltb_spec 0 k); [|lia].
  rewrite !get_row_of by lia. cbn [mbind outcome_bind].
  change (alt_fun 0) with DISK_LIGHT. cbn [color_eqb negb].
  destruct (alt_fun (0 + k)); cbn [color_eqb negb]; [done|].
  now destruct (Z.ltb_spec (0 + 1) k); [|lia].
Qed.

Lemma is_alternating_grouped k :
  2 <= k → 2 * k < size_t_modulus →
  is_alternating (grouped_row k) = Done false.
Proof.
  intros Hk Hsize. unfold is_alternating, grouped_row.
  rewrite total_count_row_of, length_row_of, Z2Nat.id by lia.
  simpl. sz_simpl.
  destruct (Z.ltb_spec 0 (2 * k - 1)); [|lia].
  rewrite !get_row_of by lia. cbn [mbind outcome_bind].
  replace (grouped_fun k 0) with DISK_LIGHT
    by (unfold grouped_fun; color_cases).
  replace (grouped_fun k (0 + 1)) with DISK_LIGHT
    by (unfold grouped_fun; color_cases).
  reflexivity.
Qed.

(** The two checks never run out of fuel. *)

Lemma get_fuel this i : get this i ≠ OutOfFuel.
Proof.
  unfold get. destruct (is_index this i); cbn [assert mbind outcome_bind];
    [|done].
  now destruct (_colors this !! Z.to_nat i).
Qed.

Lemma is_alternating_loop_fuel this fuel :
  1 <= total_count this < size_t_modulus →
  ∀ i, 0 <= i → total_count this - i < Z.of_nat fuel →
    is_alternating_loop fuel this (total_count this) i ≠ OutOfFuel.
Proof.
  intros Hn. induction fuel as [|fuel IH]; intros i Hi Hfuel; simpl; sz_simpl.
  - now destruct (Z.ltb_spec i (total_count this - 1)); [lia|].
  - destruct (Z.ltb_spec i (total_count this - 1)); [|done]. sz_simpl.
    pose proof (get_fuel this i) as Hg.
    destruct (get this i) as [c| |]; cbn [mbind outcome_bind]; [|done..].
    destruct c; cbn [color_eqb negb]; [|done].
    pose proof (get_fuel this (i + 1)) as Hg'.
    destruct (get this (i + 1)) as [c'| |]; cbn [mbind outcome_bind];
      [|done..].
    destruct c'; cbn [color_eqb negb]; [done|].
    apply IH; lia.
Qed.

Lemma is_alternating_fuel this :
  total_count this < size_t_modulus → is_alternating this ≠ OutOfFuel.
Proof.
  intros Hn. destruct (Z.eq_dec (total_count this) 0) as [H0|H0].
  - destruct this as [[|c cs]]; [done|]. unfold total_count in H0.
    simpl in H0. lia.
  - unfold is_alternating. apply is_alternating_loop_fuel;
      unfold total_count in *; lia.
Qed.

Lemma is_sorted_loop_fuel this lightSize fuel :
  lightSize <= total_count this < size_t_modulus →
  ∀ i, 0 <= i → lightSize - i <= Z.of_nat fuel →
    is_sorted_loop fuel this lightSize i ≠ OutOfFuel.
Proof.
  intros Hn. induction fuel as [|fuel IH]; intros i Hi Hfuel; simpl.
  - now destruct (Z.ltb_spec i lightSize); [lia|].
  - destruct (Z.ltb_spec i lightSize); [|done].
    pose proof (get_fuel this i) as Hg.
    destruct (get this i) as [c| |]; cbn [mbind outcome_bind]; [|done..].
    destruct c; cbn [color_eqb negb]; [|done].
    pose proof (get_fuel this (sz_add i lightSize)) as Hg'.
    destruct (get this (sz_add i lightSize)) as [c'| |];
      cbn [mbind outcome_bind]; [|done..].
    destruct c'; cbn [color_eqb negb]; [done|].
    sz_simpl. apply IH; lia.
Qed.

Lemma is_sorted_fuel this :
  total_count this < size_t_modulus → is_sorted this ≠ OutOfFuel.
Proof.
  intros Hn. unfold is_sorted, light_count, dark_count.
  assert (0 <= total_count this) by (unfold total_count; lia).
  apply is_sorted_loop_fuel; unfold total_count in *; [|lia|]; arith.
Qed.

(** * The precondition of the sorters *)

Lemma sort_left_to_right_Done before b res :
  sort_left_to_right before = Done (b, res) →
  is_alternating before = Done true.
Proof.
  unfold sort_left_to_right.
  destruct (is_alternating before) as [[|]| |]; done.
Qed.

Lemma sort_lawnmower_Done before b res :
  sort_lawnmower before = Done (b, res) →
  is_alternating before = Done true.
Proof.
  unfold sort_lawnmower.
  destruct (is_alternating before) as [[|]| |]; done.
Qed.

Lemma sort_left_to_right_not_alternating before :
  is_alternating before = Done false →
  sort_left_to_right before = Aborted Assert_is_alternating.
Proof. intros H. unfold sort_left_to_right. now rewrite H. Qed.

Lemma sort_lawnmower_not_alternating before :
  is_alternating before = Done false →
  sort_lawnmower before = Aborted Assert_is_alternating.
Proof. intros H. unfold sort_lawnmower. now rewrite H. Qed.

(** * [operator==] *)

Lemma color_eqb_eq a b : color_eqb a b = true ↔ a = b.
Proof. destruct a, b; simpl; split; congruence. Qed.

Lemma std_equal_refl l : std_equal l l = Some true.
Proof.
  induction l as [|x l IH]; [done|]. simpl.
  now replace (color_eqb x x) with true by (now destruct x).
Qed.

(** [std_equal] answers [true] exactly when the first range is a prefix of
    the second one. *)
Lemma std_equal_true l1 l2 :
  std_equal l1 l2 = Some true ↔ l1 `prefix_of` l2.
Proof.
  revert l2. induction l1 as [|x l1 IH]; intros l2; simpl.
  - split; [intros _; apply prefix_nil|done].
  - destruct l2 as [|y l2].
    + split; [done|]. intros H. now apply prefix_nil_not in H.
    + destruct (color_eqb x y) eqn:Hxy.
      * apply color_eqb_eq in Hxy as ->. rewrite IH.
        split; [apply prefix_cons|apply prefix_cons_inv_2].
      * split; [done|]. intros H. apply prefix_cons_inv_1 in H as ->.
        now destruct y.
Qed.

Lemma std_equal_same_length l1 l2 :
  length l1 = length l2 →
  std_equal l1 l2 = Some (bool_decide (l1 = l2)).
Proof.
  revert l2. induction l1 as [|x l1 IH]; intros [|y l2] Hlen; try done.
  simpl in *. destruct (color_eqb x y) eqn:Hxy.
  - apply color_eqb_eq in Hxy as ->. rewrite IH by lia. f_equal.
    apply bool_decide_ext. split; congruence.
  - f_equal. symmetry. apply bool_decide_eq_false. intros [= -> _].
    now destruct y.
Qed.

(** * The traced sorters

    Forgetting the record gives back the sorters, loop by loop. *)

Lemma swap_if_dark_light_untraced before j c tr :
  untraced (swap_if_dark_light_traced before j c tr) =
  swap_if_dark_light before j c.
Proof.
  unfold untraced, swap_if_dark_light_traced, swap_if_dark_light,
    swap_traced.
  destruct (get before j) as [x| |]; cbn [mbind outcome_bind]; [|done..].
  destruct (color_eqb x DISK_DARK); [|done].
  destruct (get before (sz_add j 1)) as [y| |]; cbn [mbind outcome_bind];
    [|done..].
  destruct (color_eqb y DISK_LIGHT); [|done].
  now destruct (swap before j).
Qed.

Lemma swap_if_light_after_dark_untraced before j c tr :
  untraced (swap_if_light_after_dark_traced before j c tr) =
  swap_if_light_after_dark before j c.
Proof.
  unfold untraced, swap_if_light_after_dark_traced,
    swap_if_light_after_dark, swap_traced.
  destruct (get before j) as [x| |]; cbn [mbind outcome_bind]; [|done..].
  destruct (color_eqb x DISK_LIGHT); [|done].
  destruct (get before (sz_sub j 1)) as [y| |]; cbn [mbind outcome_bind];
    [|done..].
  destruct (color_eqb y DISK_DARK); [|done].
  now destruct (swap before (sz_sub j 1)).
Qed.

(** Splits the traced call at the head of the goal into its outcomes, after
    rewriting the untraced call with the lemma [H]. *)
Ltac untrace_head H :=
  rewrite <- H;
  match goal with
  | |- untraced (?m ≫= _) = _ =>
      let before' := fresh "before" in
      let c' := fresh "c" in
      let tr' := fresh "tr" in
      destruct m as [[[before' c'] tr']| |]; [|reflexivity..];
      change (untraced (Done (before', c', tr')))
        with (Done (before', c'));
      cbn [mbind outcome_bind]
  end.

Lemma left_to_right_inner_untraced fuel totalCount i :
  ∀ j before c tr,
    untraced (left_to_right_inner_traced fuel totalCount i j before c tr) =
    left_to_right_inner fuel totalCount i j before c.
Proof.
  induction fuel as [|fuel IH]; intros j before c tr; simpl;
    destruct (j <? _); try reflexivity.
  untrace_head (swap_if_dark_light_untraced before j c tr). apply IH.
Qed.

Lemma left_to_right_outer_untraced fuel lightCount totalCount :
  ∀ i before c tr,
    untraced
      (left_to_right_outer_traced fuel lightCount totalCount i before c tr) =
    left_to_right_outer fuel lightCount totalCount i before c.
Proof.
  induction fuel as [|fuel IH]; intros i before c tr; simpl;
    destruct (i <? _); try reflexivity.
  untrace_head (left_to_right_inner_untraced (Z.to_nat totalCount) totalCount
                  i (sz_add i 1) before c tr).
  apply IH.
Qed.

Lemma sort_left_to_right_untraced before :
  untraced (sort_left_to_right_traced before) = sort_left_to_right before.
Proof.
  unfold sort_left_to_right_traced, sort_left_to_right.
  destruct (is_alternating before) as [[|]| |]; try reflexivity.
  cbn [assert mbind outcome_bind].
  rewrite <- (left_to_right_outer_untraced _ _ _ _ _ _ []).
  now destruct (left_to_right_outer_traced _ _ _ _ _ _ _) as [[[??]?]| |].
Qed.

Lemma lawnmower_backward_untraced fuel i :
  ∀ j before c tr,
    untraced (lawnmower_backward_traced fuel i j before c tr) =
    lawnmower_backward fuel i j before c.
Proof.
  induction fuel as [|fuel IH]; intros j before c tr; simpl;
    destruct (i <? _); try reflexivity.
  untrace_head (swap_if_light_after_dark_untraced before j c tr). apply IH.
Qed.

Lemma lawnmower_forward_untraced fuel totalCount :
  ∀ i j before c tr,
    untraced (lawnmower_forward_traced fuel totalCount i j before c tr) =
    lawnmower_forward fuel totalCount i j before c.
Proof.
  induction fuel as [|fuel IH]; intros i j before c tr; simpl;
    destruct (j <? _); try reflexivity.
  untrace_head (swap_if_dark_light_untraced before j c tr).
  untrace_head (lawnmower_backward_untraced (Z.to_nat totalCount)
                  (sz_add i 1) (sz_sub (sz_sub totalCount (sz_add i 1)) 1)
                  before0 c0 tr0).
  apply IH.
Qed.

Lemma lawnmower_outer_untraced fuel lightCount totalCount :
  ∀ i before c tr,
    untraced
      (lawnmower_outer_traced fuel lightCount totalCount i before c tr) =
    lawnmower_outer fuel lightCount totalCount i before c.
Proof.
  induction fuel as [|fuel IH]; intros i before c tr; simpl;
    destruct (i <? _); try reflexivity.
  rewrite <- (lawnmower_forward_untraced (Z.to_nat totalCount) totalCount
                i (sz_add i 1) before c tr).
  destruct (lawnmower_forward_traced _ _ _ _ _ _ _) as [[[[??]?]?]| |];
    [|reflexivity..].
  apply IH.
Qed.

Lemma sort_lawnmower_untraced before :
  untraced (sort_lawnmower_traced before) = sort_lawnmower before.
Proof.
  unfold sort_lawnmower_traced, sort_lawnmower.
  destruct (is_alternating before) as [[|]| |]; try reflexivity.
  cbn [assert mbind outcome_bind].
  rewrite <- (lawnmower_outer_untraced _ _ _ _ _ _ []).
  now destruct (lawnmower_outer_traced _ _ _ _ _ _ _) as [[[??]?]| |].
Qed.

Lemma untraced_Done {A} (m : outcome (A * list swap_event)) a :
  untraced m = Done a → ∃ tr, m = Done (a, tr).
Proof.
  destruct m as [[a' tr]| |]; cbn; [|done..]. intros [= ->]. now exists tr.
Qed.

(** Every recorded call of [swap] is made on a (dark, light) pair, whatever
    row the loops start from. *)

Lemma bind_Done {A B} (m : outcome A) (f : A → outcome B) b :
  m ≫= f = Done b → ∃ a, m = Done a ∧ f a = Done b.
Proof. destruct m as [a| |]; cbn; [eauto|done..]. Qed.

Lemma sz_add_sub_1 j : 1 <= j < size_t_modulus → sz_add (sz_sub j 1) 1 = j.
Proof. intros Hj. sz_simpl. lia. Qed.

Lemma trace_ok_snoc c tr e :
  trace_ok c tr → dark_light_event e → trace_ok (int_incr c) (tr ++ [e]).
Proof.
  intros [Htr ->] He. split.
  - apply Forall_app. split; [done|]. now apply Forall_singleton.
  - rewrite int_incr_wrap, length_app. f_equal. simpl. lia.
Qed.

Lemma swap_if_dark_light_traced_events before j c tr b' c' tr' :
  swap_if_dark_light_traced before j c tr = Done (b', c', tr') →
  trace_ok c tr →
  trace_ok c' tr' ∧ total_count b' = total_count before.
Proof.
  unfold swap_if_dark_light_traced, swap_traced. intros Hrun Htr.
  apply bind_Done in Hrun as (x & Hx & Hrun).
  destruct x; cbn [color_eqb] in Hrun; [now injection Hrun as <- <- <-|].
  apply bind_Done in Hrun as (y & Hy & Hrun).
  destruct y; cbn [color_eqb] in Hrun; [|now injection Hrun as <- <- <-].
  apply bind_Done in Hrun as ([b'' tr''] & Hswap & Hrun).
  apply bind_Done in Hswap as (b0 & Hswap & [= <- <-]).
  injection Hrun as <- <- <-.
  apply get_Done in Hx as [_ Hx]. apply get_Done in Hy as [_ Hy].
  split; [|now apply total_count_swap in Hswap].
  now apply trace_ok_snoc.
Qed.

Lemma swap_if_light_after_dark_traced_events before j c tr b' c' tr' :
  1 <= j → total_count before <= size_t_modulus →
  swap_if_light_after_dark_traced before j c tr = Done (b', c', tr') →
  trace_ok c tr →
  trace_ok c' tr' ∧ total_count b' = total_count before.
Proof.
  unfold swap_if_light_after_dark_traced, swap_traced.
  intros Hj Hn Hrun Htr.
  apply bind_Done in Hrun as (x & Hx & Hrun).
  destruct x; cbn [color_eqb] in Hrun; [|now injection Hrun as <- <- <-].
  apply bind_Done in Hrun as (y & Hy & Hrun).
  destruct y; cbn [color_eqb] in Hrun; [now injection Hrun as <- <- <-|].
  apply bind_Done in Hrun as ([b'' tr''] & Hswap & Hrun).
  apply bind_Done in Hswap as (b0 & Hswap & [= <- <-]).
  injection Hrun as <- <- <-.
  apply get_Done in Hx as [Hlt Hx]. apply get_Done in Hy as [_ Hy].
  split; [|now apply total_count_swap in Hswap].
  apply trace_ok_snoc; [done|].
  split; cbn [event_of left_color right_color]; [done|].
  now rewrite sz_add_sub_1 by lia.
Qed.

Lemma left_to_right_inner_traced_events fuel totalCount i :
  ∀ j before c tr b' c' tr',
    left_to_right_inner_traced fuel totalCount i j before c tr =
    Done (b', c', tr') →
    trace_ok c tr →
    trace_ok c' tr' ∧ total_count b' = total_count before.
Proof.
  induction fuel as [|fuel IH]; intros j before c tr b' c' tr'; simpl;
    destruct (j <? _); try done; try (now intros [= <- <- <-]).
  intros Hrun Htr. apply bind_Done in Hrun as ([[b1 c1] tr1] & H1 & Hrun).
  destruct (swap_if_dark_light_traced_events _ _ _ _ _ _ _ H1 Htr)
    as [Htr1 Hn1].
  destruct (IH _ _ _ _ _ _ _ Hrun Htr1) as [? ?]. split; [done|congruence].
Qed.

Lemma left_to_right_outer_traced_events fuel lightCount totalCount :
  ∀ i before c tr b' c' tr',
    left_to_right_outer_traced fuel lightCount totalCount i before c tr =
    Done (b', c', tr') →
    trace_ok c tr →
    trace_ok c' tr' ∧ total_count b' = total_count before.
Proof.
  induction fuel as [|fuel IH]; intros i before c tr b' c' tr'; simpl;
    destruct (i <? _); try done; try (now intros [= <- <- <-]).
  intros Hrun Htr. apply bind_Done in Hrun as ([[b1 c1] tr1] & H1 & Hrun).
  destruct (left_to_right_inner_traced_events _ _ _ _ _ _ _ _ _ _ H1 Htr)
    as [Htr1 Hn1].
  destruct (IH _ _ _ _ _ _ _ Hrun Htr1) as [? ?]. split; [done|congruence].
Qed.

Lemma lawnmower_backward_traced_events fuel i :
  0 <= i →
  ∀ j before c tr b' c' tr',
    total_count before <= size_t_modulus →
    lawnmower_backward_traced fuel i j before c tr = Done (b', c', tr') →
    trace_ok c tr →
    trace_ok c' tr' ∧ total_count b' = total_count before.
Proof.
  intros Hi.
  induction fuel as [|fuel IH]; intros j before c tr b' c' tr' Hn; simpl;
    destruct (Z.ltb_spec i j); try done; try (now intros [= <- <- <-]).
  intros Hrun Htr. apply bind_Done in Hrun as ([[b1 c1] tr1] & H1 & Hrun).
  destruct (swap_if_light_after_dark_traced_events before j _ _ _ _ _
              ltac:(lia) Hn H1 Htr) as [Htr1 Hn1].
  destruct (IH _ b1 _ _ _ _ _ ltac:(lia) Hrun Htr1) as [? ?].
  split; [done|congruence].
Qed.

Lemma sz_add_nonneg a b : 0 <= sz_add a b.
Proof.
  unfold sz_add, sz_wrap. apply Z.mod_pos_bound. reflexivity.
Qed.

Lemma lawnmower_forward_traced_events fuel totalCount :
  ∀ i j before c tr i' b' c' tr',
    total_count before <= size_t_modulus →
    lawnmower_forward_traced fuel totalCount i j before c tr =
    Done (i', b', c', tr') →
    trace_ok c tr →
    trace_ok c' tr' ∧ total_count b' = total_count before.
Proof.
  induction fuel as [|fuel IH]; intros i j before c tr i' b' c' tr' Hn;
    simpl; destruct (j <? _); try done; try (now intros [= <- <- <- <-]).
  intros Hrun Htr. apply bind_Done in Hrun as ([[b1 c1] tr1] & H1 & Hrun).
  destruct (swap_if_dark_light_traced_events _ _ _ _ _ _ _ H1 Htr)
    as [Htr1 Hn1].
  apply bind_Done in Hrun as ([[b2 c2] tr2] & H2 & Hrun).
  destruct (lawnmower_backward_traced_events _ _ (sz_add_nonneg i 1)
              _ b1 _ _ _ _ _ ltac:(lia) H2 Htr1) as [Htr2 Hn2].
  destruct (IH _ _ b2 _ _ _ _ _ _ ltac:(lia) Hrun Htr2) as [? ?].
  split; [done|congruence].
Qed.

Lemma lawnmower_outer_traced_events fuel lightCount totalCount :
  ∀ i before c tr b' c' tr',
    total_count before <= size_t_modulus →
    lawnmower_outer_traced fuel lightCount totalCount i before c tr =
    Done (b', c', tr') →
    trace_ok c tr →
    trace_ok c' tr' ∧ total_count b' = total_count before.
Proof.
  induction fuel as [|fuel IH]; intros i before c tr b' c' tr' Hn; simpl;
    destruct (i <? _); try done; try (now intros [= <- <- <-]).
  intros Hrun Htr.
  apply bind_Done in Hrun as ([[[i1 b1] c1] tr1] & H1 & Hrun).
  destruct (lawnmower_forward_traced_events _ _ _ _ _ _ _ _ _ _ _
              Hn H1 Htr) as [Htr1 Hn1].
  destruct (IH _ b1 _ _ _ _ _ ltac:(lia) Hrun Htr1) as [? ?].
  split; [done|congruence].
Qed.

Lemma trace_ok_nil : trace_ok 0 [].
Proof. split; [constructor|reflexivity]. Qed.

Lemma trace_ok_swap_count c tr b :
  trace_ok c tr →
  swap_count (sorted_disks_new b c) = Z.of_nat (length tr) mod 2 ^ 32.
Proof. intros [_ ->]. apply to_unsigned_int_wrap. Qed.

Lemma sort_left_to_right_traced_events before b res tr :
  sort_left_to_right_traced before = Done (b, res, tr) →
  Forall dark_light_event tr ∧
  swap_count res = Z.of_nat (length tr) mod 2 ^ 32.
Proof.
  unfold sort_left_to_right_traced. intros Hrun.
  apply bind_Done in Hrun as (alt & _ & Hrun).
  apply bind_Done in Hrun as (_ & _ & Hrun).
  apply bind_Done in Hrun as ([[b1 c1] tr1] & H1 & [= <- <- <-]).
  apply left_to_right_outer_traced_events in H1 as [Hok _];
    [|apply trace_ok_nil].
  split; [apply Hok|now apply trace_ok_swap_count].
Qed.

Lemma sort_lawnmower_traced_events before b res tr :
  total_count before <= size_t_modulus →
  sort_lawnmower_traced before = Done (b, res, tr) →
  Forall dark_light_event tr ∧
  swap_count res = Z.of_nat (length tr) mod 2 ^ 32.
Proof.
  unfold sort_lawnmower_traced. intros Hn Hrun.
  apply bind_Done in Hrun as (alt & _ & Hrun).
  apply bind_Done in Hrun as (_ & _ & Hrun).
  apply bind_Done in Hrun as ([[b1 c1] tr1] & H1 & [= <- <- <-]).
  apply lawnmower_outer_traced_events in H1 as [Hok _];
    [|done|apply trace_ok_nil].
  split; [apply Hok|now apply trace_ok_swap_count].
Qed.

(** * The sorters on a row a program can hold *)

Lemma sorters_on_alternating before :
  row_state before → is_alternating before = Done true →
  ∃ k, 1 <= k ∧ 2 * k < size_t_modulus ∧ before = alternating_row k ∧
       total_count before = 2 * k ∧
       sort_left_to_right before =
       Done (grouped_row k,
             sorted_disks_new (grouped_row k) (int_wrap (triangle (k - 1))))
       ∧
       sort_lawnmower before =
       Done (grouped_row k,
             sorted_disks_new (grouped_row k) (int_wrap (triangle (k - 1)))).
Proof.
  intros Hrow Halt.
  destruct (row_state_is_alternating before Hrow Halt)
    as (k & Hk & Hsize & ->).
  exists k. rewrite total_count_alternating by done.
  repeat split; try done.
  - now apply sort_left_to_right_alternating.
  - now apply sort_lawnmower_alternating.
Qed.

Lemma alternating_row_not_grouped k :
  2 <= k → 2 * k < size_t_modulus → grouped_row k ≠ alternating_row k.
Proof.
  intros Hk Hsize Heq.
  pose proof (is_alternating_grouped k Hk Hsize) as Hg.
  rewrite Heq, is_alternating_alternating in Hg by lia. discriminate.
Qed.

(** * The claims *)

(** C1.  For every row that satisfies [is_alternating()],
    [sort_left_to_right] and [sort_lawnmower] both return a result, and the
    row of that result satisfies [is_sorted()]. *)
Theorem sorters_return_sorted_row before :
  row_state before → is_alternating before = Done true →
  (∃ b res, sort_left_to_right before = Done (b, res) ∧
            is_sorted (after res) = Done true) ∧
  (∃ b res, sort_lawnmower before = Done (b, res) ∧
            is_sorted (after res) = Done true).
Proof.
  intros Hrow Halt.
  destruct (sorters_on_alternating before Hrow Halt)
    as (k & Hk & Hsize & _ & _ & -> & ->).
  split; do 2 eexists; (split; [reflexivity|]);
    now apply is_sorted_grouped.
Qed.

Lemma sorters_return_sorted_row_witness :
  row_state (alternating_row 3) ∧
  is_alternating (alternating_row 3) = Done true ∧
  (∃ b res, sort_left_to_right (alternating_row 3) = Done (b, res) ∧
            is_sorted (after res) = Done true) ∧
  (∃ b res, sort_lawnmower (alternating_row 3) = Done (b, res) ∧
            is_sorted (after res) = Done true).
Proof.
  assert (Hrow : row_state (alternating_row 3)).
  { apply (row_constructed 3); [|reflexivity].
    unfold is_size_t, size_t_modulus. lia. }
  split; [exact Hrow|]. split; [reflexivity|].
  apply (sorters_return_sorted_row (alternating_row 3) Hrow).
  reflexivity.
Defined.

(** C2.  [sort_lawnmower] does not have the step structure of the
    specification.  On the alternating row of 8 disks the sorter swaps at
    positions 1, 5, 3, 2, 4, 3: its first backward sweep (5, 3, 2) starts
    after the single forward test at 1.  The algorithm as worded (a whole
    forward sweep, then [i++], then a whole backward sweep) aborts in its
    first forward sweep, which reads past the end of the row; with that
    sweep stopped one position earlier it swaps at 1, 3, 5 before any
    backward swap, and ends with the ungrouped row "L L L D L D D D" when
    the loop header increments [i] as well.  Under no reading does it make
    the swaps of the sorter. *)
Theorem sort_lawnmower_is_not_the_reference :
  disk_state_new 4 = Done (alternating_row 4) ∧
  untraced (sort_lawnmower_traced (alternating_row 4)) =
    sort_lawnmower (alternating_row 4) ∧
  traced_output (sort_lawnmower_traced (alternating_row 4)) =
    Done ("L L L L D D D D"%string, 6, [1; 5; 3; 2; 4; 3]) ∧
  reference_lawnmower 0 1 (alternating_row 4) = Aborted Assert_is_index ∧
  reference_lawnmower 0 0 (alternating_row 4) = Aborted Assert_is_index ∧
  traced_output (reference_lawnmower 1 1 (alternating_row 4)) =
    Done ("L L L D L D D D"%string, 5, [1; 3; 5; 4; 2]) ∧
  traced_output (reference_lawnmower 1 0 (alternating_row 4)) =
    Done ("L L L L D D D D"%string, 6, [1; 3; 5; 4; 2; 3]) ∧
  sort_lawnmower_traced (alternating_row 4) ≠
    reference_lawnmower 0 1 (alternating_row 4) ∧
  sort_lawnmower_traced (alternating_row 4) ≠
    reference_lawnmower 0 0 (alternating_row 4) ∧
  sort_lawnmower_traced (alternating_row 4) ≠
    reference_lawnmower 1 1 (alternating_row 4) ∧
  sort_lawnmower_traced (alternating_row 4) ≠
    reference_lawnmower 1 0 (alternating_row 4).
Proof. repeat split; try reflexivity; discriminate. Qed.

(** C3.  For every [k >= 1], [sort_left_to_right] and [sort_lawnmower] on
    the alternating row of [2 * k] disks report the same swap count, which is
    [k * (k - 1) / 2] as an [unsigned]. *)
Theorem sorters_same_swap_count k before :
  1 <= k → row_state before → total_count before = 2 * k →
  is_alternating before = Done true →
  ∃ b1 res1 b2 res2,
    sort_left_to_right before = Done (b1, res1) ∧
    sort_lawnmower before = Done (b2, res2) ∧
    swap_count res1 = swap_count res2 ∧
    swap_count res1 = (k * (k - 1) / 2) mod 2 ^ 32.
Proof.
  intros Hk Hrow Hcount Halt.
  destruct (sorters_on_alternating before Hrow Halt)
    as (k' & Hk' & Hsize & _ & Hcount' & -> & ->).
  assert (k' = k) as -> by lia.
  do 4 eexists. repeat split.
  cbn [sorted_disks_new swap_count]. rewrite to_unsigned_int_wrap.
  unfold triangle. do 2 f_equal. lia.
Qed.

Lemma sorters_same_swap_count_witness :
  1 <= 4 ∧ row_state (alternating_row 4) ∧
  total_count (alternating_row 4) = 2 * 4 ∧
  is_alternating (alternating_row 4) = Done true ∧
  ∃ b1 res1 b2 res2,
    sort_left_to_right (alternating_row 4) = Done (b1, res1) ∧
    sort_lawnmower (alternating_row 4) = Done (b2, res2) ∧
    swap_count res1 = swap_count res2 ∧
    swap_count res1 = (4 * (4 - 1) / 2) mod 2 ^ 32.
Proof.
  assert (Hrow : row_state (alternating_row 4)).
  { apply (row_constructed 4); [|reflexivity].
    unfold is_size_t, size_t_modulus. lia. }
  split; [lia|]. split; [exact Hrow|]. split; [reflexivity|].
  split; [reflexivity|].
  apply (sorters_same_swap_count 4 (alternating_row 4));
    [lia|exact Hrow|reflexivity|reflexivity].
Defined.

(** [light_count * 2] is computed in [size_t]: from [2^63 + 1] the
    constructor builds the row of 2 disks. *)
Lemma disk_state_new_wraps :
  disk_state_new (2 ^ 63 + 1) = Done (alternating_row 1).
Proof. reflexivity. Qed.

(** C4, as claimed: for every [k >= 1] the constructed row has [2 * k] disks,
    is alternating and is not sorted.  It fails at [k = 1]: the row "L D" is
    sorted. *)
Lemma constructed_row_unsorted_fails :
  ¬ (∀ k, 1 <= k →
       ∃ this, disk_state_new k = Done this ∧
               total_count this = 2 * k ∧
               is_alternating this = Done true ∧
               is_sorted this = Done false).
Proof.
  intros Hclaim. destruct (Hclaim 1 ltac:(lia)) as (this & Hnew & _ & _ & Hs).
  injection Hnew as <-. discriminate.
Qed.

(** C4, amended.  For every [k >= 1] with [2 * k] in the range of [size_t],
    the constructor returns a row of [2 * k] disks that is alternating;
    [is_sorted()] is false on it for [k >= 2] and true for [k = 1]. *)
Theorem constructed_row k :
  1 <= k → 2 * k < size_t_modulus →
  ∃ this, disk_state_new k = Done this ∧
          total_count this = 2 * k ∧
          is_alternating this = Done true ∧
          is_sorted this = Done (k =? 1).
Proof.
  intros Hk Hsize. exists (alternating_row k).
  split; [now apply disk_state_new_alternating|].
  split; [now apply total_count_alternating|].
  split; [now apply is_alternating_alternating|].
  destruct (Z.eqb_spec k 1) as [->|Hk1]; [reflexivity|].
  apply is_sorted_alternating; [lia|done].
Qed.

Lemma constructed_row_witness :
  1 <= 2 ∧ 2 * 2 < size_t_modulus ∧
  ∃ this, disk_state_new 2 = Done this ∧
          total_count this = 2 * 2 ∧
          is_alternating this = Done true ∧
          is_sorted this = Done (2 =? 1).
Proof.
  split; [lia|]. split; [reflexivity|].
  apply (constructed_row 2); [lia|reflexivity].
Defined.

(** C5.  [operator==] compares the left row with the start of the right
    one: the row of 2 disks compares equal to the row of 4 disks, though the
    two token sequences differ; the other way round [std::equal] reads past
    the end of the shorter row. *)
Theorem operator_eq_accepts_longer_row :
  ∃ this rhs,
    disk_state_new 1 = Done this ∧ disk_state_new 2 = Done rhs ∧
    _colors this ≠ _colors rhs ∧
    disk_state_eq this rhs = Some true ∧
    disk_state_eq rhs this = None.
Proof.
  exists (alternating_row 1), (alternating_row 2).
  repeat split; try reflexivity. discriminate.
Qed.

(** C6.  The examples of the specification: on the alternating rows of
    2, 6 and 8 disks both sorters end with "L D" after 0 swaps,
    "L L L D D D" after 3 swaps and "L L L L D D D D" after 6 swaps. *)
Theorem sorters_on_examples :
  (sorted_output (disk_state_new 1 ≫= sort_left_to_right) =
     Done ("L D"%string, 0) ∧
   sorted_output (disk_state_new 1 ≫= sort_lawnmower) =
     Done ("L D"%string, 0)) ∧
  (sorted_output (disk_state_new 3 ≫= sort_left_to_right) =
     Done ("L L L D D D"%string, 3) ∧
   sorted_output (disk_state_new 3 ≫= sort_lawnmower) =
     Done ("L L L D D D"%string, 3)) ∧
  (sorted_output (disk_state_new 4 ≫= sort_left_to_right) =
     Done ("L L L L D D D D"%string, 6) ∧
   sorted_output (disk_state_new 4 ≫= sort_lawnmower) =
     Done ("L L L L D D D D"%string, 6)).
Proof. repeat split; reflexivity. Qed.

(** The row of 2 disks is alternating and sorted at once, and both sorters
    return it unchanged, with swap count 0. *)
Lemma sorting_two_disks :
  is_alternating (alternating_row 1) = Done true ∧
  is_sorted (alternating_row 1) = Done true ∧
  sort_left_to_right (alternating_row 1) =
    Done (alternating_row 1, sorted_disks_new (alternating_row 1) 0) ∧
  sort_lawnmower (alternating_row 1) =
    Done (alternating_row 1, sorted_disks_new (alternating_row 1) 0).
Proof. repeat split. Qed.

(** C7, as claimed: sorting again the row that a sorter returned always
    aborts at the precondition.  It fails for the row of 2 disks, which is
    grouped and alternating at once: sorting it again returns. *)
Lemma sorting_again_aborts_fails :
  ¬ (∀ before b res,
       row_state before →
       sort_left_to_right before = Done (b, res) ∨
       sort_lawnmower before = Done (b, res) →
       sort_left_to_right (after res) = Aborted Assert_is_alternating ∧
       sort_lawnmower (after res) = Aborted Assert_is_alternating).
Proof.
  intros Hclaim.
  assert (Hrow : row_state (alternating_row 1)).
  { apply (row_constructed 1); [|reflexivity].
    unfold is_size_t, size_t_modulus. lia. }
  destruct (Hclaim (alternating_row 1) _ _ Hrow (or_introl eq_refl))
    as [Habort _].
  discriminate.
Qed.

(** C7, amended.  When a sorter has returned on a row of at least 4 disks,
    either sorter called on the row of the result, or on the caller's row,
    aborts at [assert(before.is_alternating())], which precedes its loops:
    no swap is made and no result is returned. *)
Theorem sorting_again_aborts before b res :
  row_state before → 4 <= total_count before →
  sort_left_to_right before = Done (b, res) ∨
  sort_lawnmower before = Done (b, res) →
  is_alternating (after res) = Done false ∧
  sort_left_to_right (after res) = Aborted Assert_is_alternating ∧
  sort_lawnmower (after res) = Aborted Assert_is_alternating ∧
  sort_left_to_right b = Aborted Assert_is_alternating ∧
  sort_lawnmower b = Aborted Assert_is_alternating.
Proof.
  intros Hrow Hk2 Hsort.
  assert (Halt : is_alternating before = Done true).
  { destruct Hsort as [H|H];
      eauto using sort_left_to_right_Done, sort_lawnmower_Done. }
  destruct (sorters_on_alternating before Hrow Halt)
    as (k & Hk & Hsize & _ & Hcount & Hltr & Hlawn).
  assert (b = grouped_row k ∧ after res = grouped_row k) as [-> ->].
  { destruct Hsort as [H|H]; [rewrite Hltr in H|rewrite Hlawn in H];
      now injection H as <- <-. }
  assert (Hg : is_alternating (grouped_row k) = Done false)
    by (apply is_alternating_grouped; [lia|done]).
  repeat split;
    auto using sort_left_to_right_not_alternating,
      sort_lawnmower_not_alternating.
Qed.

Lemma sorting_again_aborts_witness :
  row_state (alternating_row 2) ∧
  4 <= total_count (alternating_row 2) ∧
  (sort_left_to_right (alternating_row 2) =
     Done (grouped_row 2, sorted_disks_new (grouped_row 2) 1) ∨
   sort_lawnmower (alternating_row 2) =
     Done (grouped_row 2, sorted_disks_new (grouped_row 2) 1)) ∧
  is_alternating (grouped_row 2) = Done false ∧
  sort_left_to_right (grouped_row 2) = Aborted Assert_is_alternating ∧
  sort_lawnmower (grouped_row 2) = Aborted Assert_is_alternating ∧
  sort_left_to_right (grouped_row 2) = Aborted Assert_is_alternating ∧
  sort_lawnmower (grouped_row 2) = Aborted Assert_is_alternating.
Proof.
  assert (Hrow : row_state (alternating_row 2)).
  { apply (row_constructed 2); [|reflexivity].
    unfold is_size_t, size_t_modulus. lia. }
  assert (H4 : 4 <= total_count (alternating_row 2)) by now vm_compute.
  split; [exact Hrow|]. split; [exact H4|]. split; [left; reflexivity|].
  apply (sorting_again_aborts (alternating_row 2) (grouped_row 2)
           (sorted_disks_new (grouped_row 2) 1) Hrow H4).
  left. reflexivity.
Defined.

(** C8.  On every alternating row, each sorter run with its calls of [swap]
    recorded returns what the sorter returns, every recorded call was made
    on a pair that is (dark, light) from left to right, and the swap count
    is the number of recorded calls. *)
Theorem sorters_swap_dark_light_pairs before :
  row_state before → is_alternating before = Done true →
  (∃ b res trace,
     sort_left_to_right_traced before = Done (b, res, trace) ∧
     sort_left_to_right before = Done (b, res) ∧
     Forall dark_light_event trace ∧
     swap_count res = Z.of_nat (length trace) mod 2 ^ 32) ∧
  (∃ b res trace,
     sort_lawnmower_traced before = Done (b, res, trace) ∧
     sort_lawnmower before = Done (b, res) ∧
     Forall dark_light_event trace ∧
     swap_count res = Z.of_nat (length trace) mod 2 ^ 32).
Proof.
  intros Hrow Halt.
  destruct (sorters_on_alternating before Hrow Halt)
    as (k & Hk & Hsize & _ & Hcount & Hltr & Hlawn).
  split.
  - pose proof (sort_left_to_right_untraced before) as Hun.
    rewrite Hltr in Hun. apply untraced_Done in Hun as [trace Htraced].
    destruct (sort_left_to_right_traced_events _ _ _ _ Htraced). eauto 10.
  - pose proof (sort_lawnmower_untraced before) as Hun.
    rewrite Hlawn in Hun. apply untraced_Done in Hun as [trace Htraced].
    destruct (sort_lawnmower_traced_events before _ _ _ ltac:(lia) Htraced).
    eauto 10.
Qed.

Lemma sorters_swap_dark_light_pairs_witness :
  row_state (alternating_row 3) ∧
  is_alternating (alternating_row 3) = Done true ∧
  (∃ b res trace,
     sort_left_to_right_traced (alternating_row 3) = Done (b, res, trace) ∧
     sort_left_to_right (alternating_row 3) = Done (b, res) ∧
     Forall dark_light_event trace ∧
     swap_count res = Z.of_nat (length trace) mod 2 ^ 32) ∧
  (∃ b res trace,
     sort_lawnmower_traced (alternating_row 3) = Done (b, res, trace) ∧
     sort_lawnmower (alternating_row 3) = Done (b, res) ∧
     Forall dark_light_event trace ∧
     swap_count res = Z.of_nat (length trace) mod 2 ^ 32).
Proof.
  assert (Hrow : row_state (alternating_row 3)).
  { apply (row_constructed 3); [|reflexivity].
    unfold is_size_t, size_t_modulus. lia. }
  split; [exact Hrow|]. split; [reflexivity|].
  apply (sorters_swap_dark_light_pairs (alternating_row 3) Hrow).
  reflexivity.
Defined.

(** C9.  Both sorters work on the caller's row: when a sorter returns, the
    caller's row is the grouped row, it is the row stored in the result (the
    two compare equal under [operator==]), and it is no longer the row that
    was passed in unless that row has 2 disks. *)
Theorem sorters_mutate_the_callers_row before b res :
  row_state before →
  sort_left_to_right before = Done (b, res) ∨
  sort_lawnmower before = Done (b, res) →
  b = after res ∧
  disk_state_eq b (after res) = Some true ∧
  is_sorted b = Done true ∧
  b = grouped_row (light_count before) ∧
  (b = before ↔ total_count before = 2).
Proof.
  intros Hrow Hsort.
  assert (Halt : is_alternating before = Done true).
  { destruct Hsort as [H|H];
      eauto using sort_left_to_right_Done, sort_lawnmower_Done. }
  destruct (sorters_on_alternating before Hrow Halt)
    as (k & Hk & Hsize & -> & Hcount & Hltr & Hlawn).
  assert (b = grouped_row k ∧ after res = grouped_row k) as [-> Hres].
  { destruct Hsort as [H|H]; [rewrite Hltr in H|rewrite Hlawn in H];
      now injection H as <- <-. }
  rewrite Hres, Hcount, light_count_alternating by done.
  split; [done|]. split; [apply std_equal_refl|].
  split; [now apply is_sorted_grouped|]. split; [done|].
  split.
  - intros Heq. destruct (Z.eq_dec k 1) as [->|]; [done|].
    now apply alternating_row_not_grouped in Heq; [|lia|].
  - intros Hk1. now assert (k = 1) as -> by lia.
Qed.

Lemma sorters_mutate_the_callers_row_witness :
  row_state (alternating_row 3) ∧
  (sort_left_to_right (alternating_row 3) =
     Done (grouped_row 3, sorted_disks_new (grouped_row 3) 3) ∨
   sort_lawnmower (alternating_row 3) =
     Done (grouped_row 3, sorted_disks_new (grouped_row 3) 3)) ∧
  grouped_row 3 = after (sorted_disks_new (grouped_row 3) 3) ∧
  disk_state_eq (grouped_row 3)
    (after (sorted_disks_new (grouped_row 3) 3)) = Some true ∧
  is_sorted (grouped_row 3) = Done true ∧
  grouped_row 3 = grouped_row (light_count (alternating_row 3)) ∧
  (grouped_row 3 = alternating_row 3 ↔ total_count (alternating_row 3) = 2).
Proof.
  assert (Hrow : row_state (alternating_row 3)).
  { apply (row_constructed 3); [|reflexivity].
    unfold is_size_t, size_t_modulus. lia. }
  split; [exact Hrow|]. split; [right; reflexivity|].
  apply (sorters_mutate_the_callers_row (alternating_row 3) (grouped_row 3)
           (sorted_disks_new (grouped_row 3) 3) Hrow).
  right. reflexivity.
Defined.

(** C10.  [light_count()] and [dark_count()] are both half the length of the
    row, whatever colours it stores: two rows of the same length have the
    same counts, and [swap] changes neither. *)
Theorem counts_follow_the_length this that i this' :
  length (_colors that) = length (_colors this) →
  swap this i = Done this' →
  light_count this = total_count this / 2 ∧
  dark_count this = total_count this / 2 ∧
  light_count that = light_count this ∧
  dark_count that = dark_count this ∧
  light_count this' = light_count this ∧
  dark_count this' = dark_count this.
Proof.
  intros Hlen Hswap. apply swap_length in Hswap.
  unfold light_count, dark_count, total_count.
  rewrite Hlen, Hswap. repeat split.
Qed.

Lemma counts_follow_the_length_witness :
  length (_colors (row_of 4 (λ _, DISK_DARK))) =
    length (_colors (alternating_row 2)) ∧
  swap (alternating_row 2) 1 = Done (grouped_row 2) ∧
  light_count (alternating_row 2) = total_count (alternating_row 2) / 2 ∧
  dark_count (alternating_row 2) = total_count (alternating_row 2) / 2 ∧
  light_count (row_of 4 (λ _, DISK_DARK)) =
    light_count (alternating_row 2) ∧
  dark_count (row_of 4 (λ _, DISK_DARK)) = dark_count (alternating_row 2) ∧
  light_count (grouped_row 2) = light_count (alternating_row 2) ∧
  dark_count (grouped_row 2) = dark_count (alternating_row 2).
Proof.
  split; [reflexivity|]. split; [reflexivity|].
  apply (counts_follow_the_length (alternating_row 2)
           (row_of 4 (λ _, DISK_DARK)) 1 (grouped_row 2)); reflexivity.
Defined.

(** * Further properties of [disk_state] *)

(** ** [swap] *)

Lemma get_in_range this i :
  0 <= i < total_count this → ∃ c, get this i = Done c ∧
                                   _colors this !! Z.to_nat i = Some c.
Proof.
  intros Hi. unfold get, is_index.
  destruct (Z.ltb_spec i (total_count this)); [|lia].
  cbn [assert mbind outcome_bind].
  destruct (lookup_lt_is_Some_2 (_colors this) (Z.to_nat i)) as [c Hc].
  { unfold total_count in *. lia. }
  rewrite Hc. eauto.
Qed.

Lemma get_out_of_range this i :
  total_count this <= i → get this i = Aborted Assert_is_index.
Proof.
  intros Hi. unfold get, is_index.
  now destruct (Z.ltb_spec i (total_count this)); [lia|].
Qed.

(** What [swap] does to the vector, when it returns. *)
Lemma swap_Done this i this' :
  0 <= i → total_count this < size_t_modulus →
  swap this i = Done this' →
  i + 1 < total_count this ∧
  ∃ l1 a b l2,
    _colors this = l1 ++ a :: b :: l2 ∧
    _colors this' = l1 ++ b :: a :: l2 ∧
    length l1 = Z.to_nat i.
Proof.
  intros Hi Hn. unfold swap, is_index.
  destruct (Z.ltb_spec i (total_count this)) as [Hlt|];
    cbn [assert mbind outcome_bind]; [|done].
  sz_simpl.
  destruct (Z.ltb_spec (i + 1) (total_count this)) as [Hlt1|];
    cbn [assert mbind outcome_bind]; [|done].
  destruct (_colors this !! Z.to_nat i) as [a|] eqn:Ha; [|done].
  destruct (_colors this !! Z.to_nat (i + 1)) as [b|] eqn:Hb; [|done].
  intros [= <-]. split; [done|]. cbn [_colors].
  replace (Z.to_nat (i + 1)) with (S (Z.to_nat i)) in * by lia.
  set (n := Z.to_nat i) in *. clearbody n.
  destruct (list_elem_of_split_length _ _ _ Ha) as (l1 & l2' & Hl & Hlen).
  subst n. rewrite Hl in Hb |- *.
  rewrite lookup_app_r, Nat.sub_succ_l, Nat.sub_diag in Hb by lia.
  destruct l2' as [|b' l2]; [done|]. injection Hb as ->.
  exists l1, a, b, l2. split; [done|]. split; [|done].
  rewrite insert_app_r_alt by lia. rewrite Nat.sub_diag. cbn [insert].
  rewrite insert_app_r_alt by lia.
  now rewrite Nat.sub_succ_l, Nat.sub_diag by lia.
Qed.

Lemma swap_middle this i l1 a b l2 :
  0 <= i → total_count this < size_t_modulus →
  _colors this = l1 ++ a :: b :: l2 → length l1 = Z.to_nat i →
  swap this i = Done {| _colors := l1 ++ b :: a :: l2 |}.
Proof.
  intros Hi Hn Hl Hlen. unfold swap, is_index.
  assert (Htotal : total_count this = i + 2 + Z.of_nat (length l2)).
  { unfold total_count. rewrite Hl, length_app. simpl. lia. }
  destruct (Z.ltb_spec i (total_count this)); [|lia].
  cbn [assert mbind outcome_bind]. sz_simpl.
  destruct (Z.ltb_spec (i + 1) (total_count this)); [|lia].
  cbn [assert mbind outcome_bind].
  replace (Z.to_nat (i + 1)) with (S (length l1)) by lia.
  rewrite <- Hlen, Hl.
  rewrite (lookup_app_r l1 _ (length l1)) by lia.
  rewrite (lookup_app_r l1 _ (S (length l1))) by lia.
  rewrite Nat.sub_diag, Nat.sub_succ_l, Nat.sub_diag by lia.
  cbn [lookup list_lookup]. do 2 f_equal.
  rewrite insert_app_r_alt by lia. rewrite Nat.sub_diag. cbn [insert].
  rewrite insert_app_r_alt by lia.
  now rewrite Nat.sub_succ_l, Nat.sub_diag by lia.
Qed.

(** X1.  [swap(left_index)] returns exactly when [left_index] and
    [left_index + 1] are both indices of the row, and then the row keeps its
    length; otherwise it aborts on an index assertion.  In particular it
    aborts at the last index. *)
Theorem swap_returns_within_bounds this i :
  0 <= i → total_count this < size_t_modulus →
  if i + 1 <? total_count this
  then ∃ this', swap this i = Done this' ∧
                total_count this' = total_count this
  else swap this i = Aborted Assert_is_index.
Proof.
  intros Hi Hn. destruct (Z.ltb_spec (i + 1) (total_count this)) as [Hlt|Hge].
  - destruct (get_in_range this i ltac:(lia)) as (a & _ & Ha).
    destruct (get_in_range this (i + 1) ltac:(lia)) as (b & _ & Hb).
    unfold swap, is_index. sz_simpl.
    destruct (Z.ltb_spec i (total_count this)); [|lia].
    destruct (Z.ltb_spec (i + 1) (total_count this)); [|lia].
    cbn [assert mbind outcome_bind]. rewrite Ha, Hb.
    eexists. split; [reflexivity|].
    unfold total_count. cbn [_colors]. now rewrite !length_insert.
  - unfold swap, is_index.
    destruct (Z.ltb_spec i (total_count this)); [|done].
    cbn [assert mbind outcome_bind]. sz_simpl.
    now destruct (Z.ltb_spec (i + 1) (total_count this)); [lia|].
Qed.

Lemma swap_returns_within_bounds_witness :
  0 <= 2 ∧ total_count (alternating_row 2) < size_t_modulus ∧
  (if 2 + 1 <? total_count (alternating_row 2)
   then ∃ this', swap (alternating_row 2) 2 = Done this' ∧
                 total_count this' = total_count (alternating_row 2)
   else swap (alternating_row 2) 2 = Aborted Assert_is_index) ∧
  0 <= 3 ∧
  (if 3 + 1 <? total_count (alternating_row 2)
   then ∃ this', swap (alternating_row 2) 3 = Done this' ∧
                 total_count this' = total_count (alternating_row 2)
   else swap (alternating_row 2) 3 = Aborted Assert_is_index).
Proof.
  assert (Hn : total_count (alternating_row 2) < size_t_modulus)
    by reflexivity.
  split; [lia|]. split; [exact Hn|].
  split; [apply (swap_returns_within_bounds (alternating_row 2) 2); [lia|exact Hn]|].
  split; [lia|].
  apply (swap_returns_within_bounds (alternating_row 2) 3); [lia|exact Hn].
Defined.

(** X2.  When [swap(left_index)] returns, the disks at [left_index] and
    [left_index + 1] have changed places and every other position reads as
    before. *)
Theorem swap_exchanges_neighbours this i this' :
  0 <= i → total_count this < size_t_modulus →
  swap this i = Done this' →
  get this' i = get this (i + 1) ∧
  get this' (i + 1) = get this i ∧
  ∀ j, 0 <= j → j ≠ i → j ≠ i + 1 → get this' j = get this j.
Proof.
  intros Hi Hn Hswap.
  pose proof (total_count_swap _ _ _ Hswap) as Htotal.
  destruct (swap_Done _ _ _ Hi Hn Hswap)
    as (Hlt & l1 & a & b & l2 & Hl & Hl' & Hlen).
  assert (Hget : ∀ that j, get that j =
            _ ← assert (j <? total_count that) Assert_is_index;
            match _colors that !! Z.to_nat j with
            | Some c => Done c
            | None => Aborted Assert_is_index
            end) by done.
  rewrite !Hget, Htotal, Hl, Hl'.
  replace (Z.to_nat (i + 1)) with (S (length l1)) by lia.
  rewrite <- Hlen.
  rewrite !(lookup_app_r l1 _ (length l1)) by lia.
  rewrite !(lookup_app_r l1 _ (S (length l1))) by lia.
  rewrite Nat.sub_diag, Nat.sub_succ_l, Nat.sub_diag by lia.
  cbn [lookup list_lookup].
  destruct (Z.ltb_spec i (total_count this)); [|lia].
  destruct (Z.ltb_spec (i + 1) (total_count this)); [|lia].
  split; [done|]. split; [done|].
  intros j Hj Hji Hji1. rewrite !Hget, Htotal, Hl, Hl'. f_equal.
  destruct (decide (Z.to_nat j < length l1)%nat).
  - now rewrite !lookup_app_l by done.
  - rewrite !lookup_app_r by lia.
    destruct (Z.to_nat j - length l1)%nat as [|[|m]] eqn:Hm; [lia..|done].
Qed.

Lemma swap_exchanges_neighbours_witness :
  0 <= 1 ∧ total_count (alternating_row 2) < size_t_modulus ∧
  swap (alternating_row 2) 1 = Done (grouped_row 2) ∧
  get (grouped_row 2) 1 = get (alternating_row 2) (1 + 1) ∧
  get (grouped_row 2) (1 + 1) = get (alternating_row 2) 1 ∧
  ∀ j, 0 <= j → j ≠ 1 → j ≠ 1 + 1 →
       get (grouped_row 2) j = get (alternating_row 2) j.
Proof.
  split; [lia|]. split; [reflexivity|]. split; [reflexivity|].
  apply (swap_exchanges_neighbours (alternating_row 2) 1 (grouped_row 2));
    [lia|reflexivity|reflexivity].
Defined.

(** X3.  [swap] is its own inverse: swapping again at the same index gives
    back the row. *)
Theorem swap_twice this i this' :
  0 <= i → total_count this < size_t_modulus →
  swap this i = Done this' → swap this' i = Done this.
Proof.
  intros Hi Hn Hswap.
  pose proof (total_count_swap _ _ _ Hswap) as Htotal.
  destruct (swap_Done _ _ _ Hi Hn Hswap)
    as (_ & l1 & a & b & l2 & Hl & Hl' & Hlen).
  rewrite (swap_middle this' i l1 b a l2) by (done || lia).
  destruct this as [cs]. cbn [_colors] in Hl. now subst cs.
Qed.

Lemma swap_twice_witness :
  0 <= 1 ∧ total_count (alternating_row 2) < size_t_modulus ∧
  swap (alternating_row 2) 1 = Done (grouped_row 2) ∧
  swap (grouped_row 2) 1 = Done (alternating_row 2).
Proof.
  split; [lia|]. split; [reflexivity|]. split; [reflexivity|].
  apply (swap_twice (alternating_row 2) 1 (grouped_row 2));
    [lia|reflexivity|reflexivity].
Defined.

(** ** The disks of a row *)

Lemma count_color_app c l1 l2 :
  count_color c (l1 ++ l2) = (count_color c l1 + count_color c l2)%nat.
Proof. induction l1 as [|x l1 IH]; simpl; [done|]. rewrite IH. lia. Qed.

Lemma count_color_Permutation c l1 l2 :
  l1 ≡ₚ l2 → count_color c l1 = count_color c l2.
Proof. induction 1; simpl; lia. Qed.

Lemma count_color_insert c l i x y :
  l !! i = Some y →
  (count_color c (<[i:=x]> l) + (if color_eqb y c then 1 else 0) =
   count_color c l + (if color_eqb x c then 1 else 0))%nat.
Proof.
  revert i. induction l as [|z l IH]; intros [|i] Hy; simpl in *; try done.
  - injection Hy as ->. lia.
  - specialize (IH i Hy). lia.
Qed.

Lemma swap_count_color c this i this' :
  swap this i = Done this' →
  count_color c (_colors this') = count_color c (_colors this).
Proof.
  unfold swap. destruct (is_index this i); cbn [assert mbind outcome_bind];
    [|done].
  destruct (is_index this (sz_add i 1)); cbn [assert mbind outcome_bind];
    [|done].
  destruct (_colors this !! Z.to_nat i) as [a|] eqn:Ha; [|done].
  destruct (_colors this !! Z.to_nat (sz_add i 1)) as [b|] eqn:Hb; [|done].
  intros [= <-]. cbn [_colors].
  pose proof (count_color_insert c _ _ b a Ha) as H1.
  assert (Hb' : <[Z.to_nat i:=b]> (_colors this) !! Z.to_nat (sz_add i 1)
                = Some b).
  { destruct (decide (Z.to_nat i = Z.to_nat (sz_add i 1))) as [<-|Hne].
    - apply list_lookup_insert_eq. now apply lookup_lt_Some in Ha.
    - now rewrite list_lookup_insert_ne. }
  pose proof (count_color_insert c _ _ a b Hb') as H2. lia.
Qed.

Lemma count_color_alternating c (m : nat) :
  count_color c ((λ p : nat, alt_fun (Z.of_nat p)) <$> seq 0 (2 * m)) = m.
Proof.
  induction m as [|m IH]; [done|].
  replace (2 * S m)%nat with (2 * m + 2)%nat by lia.
  rewrite seq_app, fmap_app, count_color_app, IH.
  assert (Hn : Z.of_nat (2 * m) mod 2 = 0) by arith.
  set (n := (2 * m)%nat) in *. clearbody n. simpl.
  replace (alt_fun (Z.of_nat n)) with DISK_LIGHT
    by (unfold alt_fun; color_cases).
  replace (alt_fun (Z.of_nat (S n))) with DISK_DARK
    by (unfold alt_fun; color_cases).
  destruct c; simpl; lia.
Qed.

(** X4.  On every row a program can hold, [light_count()] and
    [dark_count()], which are computed from the length alone, are the
    numbers of light and of dark disks the row stores, and there is at least
    one of each. *)
Theorem counts_are_the_disks this :
  row_state this →
  Z.of_nat (count_color DISK_LIGHT (_colors this)) = light_count this ∧
  Z.of_nat (count_color DISK_DARK (_colors this)) = dark_count this ∧
  1 <= light_count this ∧
  total_count this = 2 * light_count this.
Proof.
  induction 1 as [lc this Hlc Hnew|this i this' _ IH Hswap].
  - destruct (disk_state_new_Done lc this Hlc Hnew) as (k & Hk & _ & ->).
    unfold dark_count. rewrite light_count_alternating by done.
    rewrite total_count_alternating by done.
    unfold alternating_row, row_of. cbn [_colors].
    replace (Z.to_nat (2 * k)) with (2 * Z.to_nat k)%nat by lia.
    rewrite !count_color_alternating. repeat split; arith.
  - rewrite !(swap_count_color _ _ _ _ Hswap).
    unfold light_count, dark_count in *.
    now rewrite (total_count_swap _ _ _ Hswap).
Qed.

Lemma counts_are_the_disks_witness :
  row_state (grouped_row 2) ∧
  Z.of_nat (count_color DISK_LIGHT (_colors (grouped_row 2))) =
    light_count (grouped_row 2) ∧
  Z.of_nat (count_color DISK_DARK (_colors (grouped_row 2))) =
    dark_count (grouped_row 2) ∧
  1 <= light_count (grouped_row 2) ∧
  total_count (grouped_row 2) = 2 * light_count (grouped_row 2).
Proof.
  assert (Hrow : row_state (grouped_row 2)).
  { apply (row_swapped (alternating_row 2) 1); [|reflexivity].
    apply (row_constructed 2); [|reflexivity].
    unfold is_size_t, size_t_modulus. lia. }
  split; [exact Hrow|]. apply (counts_are_the_disks (grouped_row 2) Hrow).
Defined.

(** ** Inversions *)

Lemma inversions_swap l1 l2 :
  inversions (l1 ++ DISK_DARK :: DISK_LIGHT :: l2) =
  S (inversions (l1 ++ DISK_LIGHT :: DISK_DARK :: l2)).
Proof.
  induction l1 as [|x l1 IH]; simpl; [lia|].
  rewrite IH, !count_color_app. simpl. lia.
Qed.

Lemma preserved_refl before trace : preserved before before trace trace.
Proof. done. Qed.

Lemma preserved_trans b1 b2 b3 t1 t2 t3 :
  preserved b1 b2 t1 t2 → preserved b2 b3 t2 t3 → preserved b1 b3 t1 t3.
Proof.
  intros [Hp1 Hi1] [Hp2 Hi2]. split; [by etrans|lia].
Qed.

(** A recorded swap of a (dark, light) pair removes one inversion. *)
Lemma swap_traced_preserved before j trace b' trace' :
  0 <= j → total_count before < size_t_modulus →
  _colors before !! Z.to_nat j = Some DISK_DARK →
  _colors before !! Z.to_nat (j + 1) = Some DISK_LIGHT →
  swap_traced before j trace = Done (b', trace') →
  preserved before b' trace trace'.
Proof.
  intros Hj Hn Hd Hl Hrun. unfold swap_traced in Hrun.
  apply bind_Done in Hrun as (b0 & Hswap & [= <- <-]).
  destruct (swap_Done _ _ _ Hj Hn Hswap)
    as (_ & l1 & a & b & l2 & Hl1 & Hl2 & Hlen).
  rewrite Hl1 in Hd, Hl.
  replace (Z.to_nat (j + 1)) with (S (length l1)) in Hl by lia.
  rewrite <- Hlen in Hd.
  rewrite lookup_app_r, Nat.sub_diag in Hd by lia.
  rewrite lookup_app_r, Nat.sub_succ_l, Nat.sub_diag in Hl by lia.
  injection Hd as ->. injection Hl as ->.
  split; rewrite Hl1, Hl2.
  - apply Permutation_app_head, perm_swap.
  - rewrite inversions_swap, length_app. simpl. lia.
Qed.

Lemma preserved_total_count before b' trace trace' :
  preserved before b' trace trace' → total_count b' = total_count before.
Proof.
  intros [Hp _]. unfold total_count. now rewrite (Permutation_length Hp).
Qed.

Lemma swap_if_dark_light_traced_preserved before j c tr b' c' tr' :
  0 <= j → total_count before < size_t_modulus →
  swap_if_dark_light_traced before j c tr = Done (b', c', tr') →
  preserved before b' tr tr'.
Proof.
  unfold swap_if_dark_light_traced. intros Hj Hn Hrun.
  apply bind_Done in Hrun as (x & Hx & Hrun).
  destruct x; cbn [color_eqb] in Hrun;
    [injection Hrun as <- <- <-; apply preserved_refl|].
  apply bind_Done in Hrun as (y & Hy & Hrun).
  destruct y; cbn [color_eqb] in Hrun;
    [|injection Hrun as <- <- <-; apply preserved_refl].
  apply bind_Done in Hrun as ([b'' tr''] & Hswap & [= <- <- <-]).
  apply get_Done in Hx as [Hlt Hx]. apply get_Done in Hy as [Hlt' Hy].
  assert (Hj1 : sz_add j 1 = j + 1) by (sz_simpl; lia).
  rewrite Hj1 in Hy. eauto using swap_traced_preserved.
Qed.

Lemma swap_if_light_after_dark_traced_preserved before j c tr b' c' tr' :
  1 <= j → total_count before < size_t_modulus →
  swap_if_light_after_dark_traced before j c tr = Done (b', c', tr') →
  preserved before b' tr tr'.
Proof.
  unfold swap_if_light_after_dark_traced. intros Hj Hn Hrun.
  apply bind_Done in Hrun as (x & Hx & Hrun).
  destruct x; cbn [color_eqb] in Hrun;
    [|injection Hrun as <- <- <-; apply preserved_refl].
  apply bind_Done in Hrun as (y & Hy & Hrun).
  destruct y; cbn [color_eqb] in Hrun;
    [injection Hrun as <- <- <-; apply preserved_refl|].
  apply bind_Done in Hrun as ([b'' tr''] & Hswap & [= <- <- <-]).
  apply get_Done in Hx as [Hlt Hx]. apply get_Done in Hy as [Hlt' Hy].
  assert (Hj1 : sz_sub j 1 = j - 1) by (sz_simpl; lia).
  rewrite Hj1 in Hy, Hswap.
  apply (swap_traced_preserved before (j - 1) tr); try done; try lia.
  now replace (j - 1 + 1) with j by lia.
Qed.

Lemma left_to_right_inner_traced_preserved fuel totalCount i :
  ∀ j before c tr b' c' tr',
    0 <= j → total_count before < size_t_modulus →
    left_to_right_inner_traced fuel totalCount i j before c tr =
    Done (b', c', tr') →
    preserved before b' tr tr'.
Proof.
  induction fuel as [|fuel IH]; intros j before c tr b' c' tr' Hj Hn; simpl;
    destruct (j <? _); try done;
    try (intros [= <- <- <-]; apply preserved_refl).
  intros Hrun. apply bind_Done in Hrun as ([[b1 c1] tr1] & H1 & Hrun).
  pose proof (swap_if_dark_light_traced_preserved _ _ _ _ _ _ _ Hj Hn H1)
    as Hp1.
  pose proof (preserved_total_count _ _ _ _ Hp1) as Hn1.
  apply (preserved_trans _ b1 _ _ tr1); [done|].
  apply (IH _ b1 _ _ _ _ _ (sz_add_nonneg j 1) ltac:(lia) Hrun).
Qed.

Lemma left_to_right_outer_traced_preserved fuel lightCount totalCount :
  ∀ i before c tr b' c' tr',
    total_count before < size_t_modulus →
    left_to_right_outer_traced fuel lightCount totalCount i before c tr =
    Done (b', c', tr') →
    preserved before b' tr tr'.
Proof.
  induction fuel as [|fuel IH]; intros i before c tr b' c' tr' Hn; simpl;
    destruct (i <? _); try done;
    try (intros [= <- <- <-]; apply preserved_refl).
  intros Hrun. apply bind_Done in Hrun as ([[b1 c1] tr1] & H1 & Hrun).
  pose proof (left_to_right_inner_traced_preserved _ _ _ _ _ _ _ _ _ _
                (sz_add_nonneg i 1) Hn H1) as Hp1.
  pose proof (preserved_total_count _ _ _ _ Hp1) as Hn1.
  apply (preserved_trans _ b1 _ _ tr1); [done|].
  apply (IH _ b1 _ _ _ _ _ ltac:(lia) Hrun).
Qed.

Lemma lawnmower_backward_traced_preserved fuel i :
  0 <= i →
  ∀ j before c tr b' c' tr',
    total_count before < size_t_modulus →
    lawnmower_backward_traced fuel i j before c tr = Done (b', c', tr') →
    preserved before b' tr tr'.
Proof.
  intros Hi.
  induction fuel as [|fuel IH]; intros j before c tr b' c' tr' Hn; simpl;
    destruct (Z.ltb_spec i j); try done;
    try (intros [= <- <- <-]; apply preserved_refl).
  intros Hrun. apply bind_Done in Hrun as ([[b1 c1] tr1] & H1 & Hrun).
  pose proof (swap_if_light_after_dark_traced_preserved before j _ _ _ _ _
                ltac:(lia) Hn H1) as Hp1.
  pose proof (preserved_total_count _ _ _ _ Hp1) as Hn1.
  apply (preserved_trans _ b1 _ _ tr1); [done|].
  apply (IH _ b1 _ _ _ _ _ ltac:(lia) Hrun).
Qed.

Lemma lawnmower_forward_traced_preserved fuel totalCount :
  ∀ i j before c tr i' b' c' tr',
    0 <= j → total_count before < size_t_modulus →
    lawnmower_forward_traced fuel totalCount i j before c tr =
    Done (i', b', c', tr') →
    preserved before b' tr tr'.
Proof.
  induction fuel as [|fuel IH]; intros i j before c tr i' b' c' tr' Hj Hn;
    simpl; destruct (j <? _); try done;
    try (intros [= <- <- <- <-]; apply preserved_refl).
  intros Hrun. apply bind_Done in Hrun as ([[b1 c1] tr1] & H1 & Hrun).
  pose proof (swap_if_dark_light_traced_preserved _ _ _ _ _ _ _ Hj Hn H1)
    as Hp1.
  pose proof (preserved_total_count _ _ _ _ Hp1) as Hn1.
  apply bind_Done in Hrun as ([[b2 c2] tr2] & H2 & Hrun).
  pose proof (lawnmower_backward_traced_preserved _ _ (sz_add_nonneg i 1)
                _ b1 _ _ _ _ _ ltac:(lia) H2) as Hp2.
  pose proof (preserved_total_count _ _ _ _ Hp2) as Hn2.
  apply (preserved_trans _ b1 _ _ tr1); [done|].
  apply (preserved_trans _ b2 _ _ tr2); [done|].
  apply (IH _ _ b2 _ _ _ _ _ _ (sz_add_nonneg j 1) ltac:(lia) Hrun).
Qed.

Lemma lawnmower_outer_traced_preserved fuel lightCount totalCount :
  ∀ i before c tr b' c' tr',
    total_count before < size_t_modulus →
    lawnmower_outer_traced fuel lightCount totalCount i before c tr =
    Done (b', c', tr') →
    preserved before b' tr tr'.
Proof.
  induction fuel as [|fuel IH]; intros i before c tr b' c' tr' Hn; simpl;
    destruct (i <? _); try done;
    try (intros [= <- <- <-]; apply preserved_refl).
  intros Hrun.
  apply bind_Done in Hrun as ([[[i1 b1] c1] tr1] & H1 & Hrun).
  pose proof (lawnmower_forward_traced_preserved _ _ _ _ _ _ _ _ _ _ _
                (sz_add_nonneg i 1) Hn H1) as Hp1.
  pose proof (preserved_total_count _ _ _ _ Hp1) as Hn1.
  apply (preserved_trans _ b1 _ _ tr1); [done|].
  apply (IH _ b1 _ _ _ _ _ ltac:(lia) Hrun).
Qed.

(** A sorter that returns has made a traced run with the same result, which
    kept the disks and counted the inversions it removed. *)
Lemma sorter_run before b res :
  total_count before < size_t_modulus →
  sort_left_to_right before = Done (b, res) ∨
  sort_lawnmower before = Done (b, res) →
  ∃ trace,
    preserved before b [] trace ∧
    after res = b ∧
    swap_count res = Z.of_nat (length trace) mod 2 ^ 32.
Proof.
  intros Hn [Hsort|Hsort].
  - rewrite <- sort_left_to_right_untraced in Hsort.
    apply untraced_Done in Hsort as [trace Htraced]. exists trace.
    destruct (sort_left_to_right_traced_events _ _ _ _ Htraced) as [_ Hc].
    unfold sort_left_to_right_traced in Htraced.
    apply bind_Done in Htraced as (alt & _ & Htraced).
    apply bind_Done in Htraced as (_ & _ & Htraced).
    apply bind_Done in Htraced as ([[b1 c1] tr1] & H1 & [= <- <- <-]).
    eauto using left_to_right_outer_traced_preserved.
  - rewrite <- sort_lawnmower_untraced in Hsort.
    apply untraced_Done in Hsort as [trace Htraced]. exists trace.
    destruct (sort_lawnmower_traced_events before _ _ _ ltac:(lia) Htraced)
      as [_ Hc].
    unfold sort_lawnmower_traced in Htraced.
    apply bind_Done in Htraced as (alt & _ & Htraced).
    apply bind_Done in Htraced as (_ & _ & Htraced).
    apply bind_Done in Htraced as ([[b1 c1] tr1] & H1 & [= <- <- <-]).
    eauto using lawnmower_outer_traced_preserved.
Qed.

(** X5.  Whatever row a sorter returns on, the row it leaves is a
    permutation of the row it was given: no disk is lost, added or
    recoloured. *)
Theorem sorters_permute_the_disks before b res :
  total_count before < size_t_modulus →
  sort_left_to_right before = Done (b, res) ∨
  sort_lawnmower before = Done (b, res) →
  _colors b ≡ₚ _colors before ∧
  _colors (after res) ≡ₚ _colors before ∧
  total_count (after res) = total_count before.
Proof.
  intros Hn Hsort.
  destruct (sorter_run before b res Hn Hsort) as (trace & Hp & -> & _).
  pose proof (preserved_total_count _ _ _ _ Hp). now destruct Hp.
Qed.

Lemma sorters_permute_the_disks_witness :
  total_count (alternating_row 3) < size_t_modulus ∧
  (sort_left_to_right (alternating_row 3) =
     Done (grouped_row 3, sorted_disks_new (grouped_row 3) 3) ∨
   sort_lawnmower (alternating_row 3) =
     Done (grouped_row 3, sorted_disks_new (grouped_row 3) 3)) ∧
  _colors (grouped_row 3) ≡ₚ _colors (alternating_row 3) ∧
  _colors (after (sorted_disks_new (grouped_row 3) 3)) ≡ₚ
    _colors (alternating_row 3) ∧
  total_count (after (sorted_disks_new (grouped_row 3) 3)) =
    total_count (alternating_row 3).
Proof.
  split; [reflexivity|]. split; [right; reflexivity|].
  apply (sorters_permute_the_disks (alternating_row 3) (grouped_row 3)
           (sorted_disks_new (grouped_row 3) 3)); [reflexivity|].
  right. reflexivity.
Defined.

(** X6.  The swap count a sorter reports is the number of inversions (a dark
    disk somewhere left of a light one) of the row it was given minus the
    number of inversions of the row it leaves, as an [unsigned]: every swap
    removes exactly one inversion and none is ever added. *)
Theorem swap_count_is_inversions_removed before b res :
  total_count before < size_t_modulus →
  sort_left_to_right before = Done (b, res) ∨
  sort_lawnmower before = Done (b, res) →
  (inversions (_colors b) <= inversions (_colors before))%nat ∧
  swap_count res =
    (Z.of_nat (inversions (_colors before)) -
     Z.of_nat (inversions (_colors b))) mod 2 ^ 32.
Proof.
  intros Hn Hsort.
  destruct (sorter_run before b res Hn Hsort) as (trace & [_ Hi] & _ & ->).
  simpl in Hi. split; [lia|]. f_equal. lia.
Qed.

Lemma swap_count_is_inversions_removed_witness :
  total_count (alternating_row 3) < size_t_modulus ∧
  (sort_left_to_right (alternating_row 3) =
     Done (grouped_row 3, sorted_disks_new (grouped_row 3) 3) ∨
   sort_lawnmower (alternating_row 3) =
     Done (grouped_row 3, sorted_disks_new (grouped_row 3) 3)) ∧
  (inversions (_colors (grouped_row 3)) <=
   inversions (_colors (alternating_row 3)))%nat ∧
  swap_count (sorted_disks_new (grouped_row 3) 3) =
    (Z.of_nat (inversions (_colors (alternating_row 3))) -
     Z.of_nat (inversions (_colors (grouped_row 3)))) mod 2 ^ 32.
Proof.
  split; [reflexivity|]. split; [left; reflexivity|].
  apply (swap_count_is_inversions_removed (alternating_row 3) (grouped_row 3)
           (sorted_disks_new (grouped_row 3) 3)); [reflexivity|].
  left. reflexivity.
Defined.

(** ** The constructor *)

(** X7.  The constructor on any [size_t] argument: it aborts on
    [assert(dark_count() > 0)] when [light_count * 2] is 0 in [size_t]
    (arguments 0 and [2^63]), and otherwise builds the alternating row of
    [light_count mod 2^63] pairs, which is [light_count] pairs below
    [2^63]. *)
Theorem disk_state_new_any light_count :
  is_size_t light_count →
  disk_state_new light_count =
  if light_count mod 2 ^ 63 =? 0
  then Aborted Assert_dark_count_positive
  else Done (alternating_row (light_count mod 2 ^ 63)).
Proof.
  intros Hlc. pose proof size_t_modulus_val as Hmod.
  unfold is_size_t in Hlc. rewrite Hmod in Hlc.
  set (k := light_count mod 2 ^ 63).
  assert (Hk : 0 <= k < 2 ^ 63) by (apply Z.mod_pos_bound; lia).
  assert (Hmul : sz_mul light_count 2 = 2 * k).
  { unfold sz_mul, sz_wrap, k. rewrite Hmod.
    change 18446744073709551616 with (2 ^ 63 * 2).
    rewrite Zmult_mod_distr_r. lia. }
  assert (Hsame : disk_state_new light_count = disk_state_new k).
  { unfold disk_state_new. rewrite Hmul.
    rewrite sz_mul_small by (rewrite Hmod; lia).
    now replace (k * 2) with (2 * k) by lia. }
  rewrite Hsame. destruct (Z.eqb_spec k 0) as [->|Hk0]; [reflexivity|].
  change (2 ^ 63) with 9223372036854775808 in Hk.
  apply disk_state_new_alternating; lia.
Qed.

Lemma disk_state_new_any_witness :
  is_size_t 0 ∧
  disk_state_new 0 =
    (if 0 mod 2 ^ 63 =? 0
     then Aborted Assert_dark_count_positive
     else Done (alternating_row (0 mod 2 ^ 63))) ∧
  is_size_t 5 ∧
  disk_state_new 5 =
    (if 5 mod 2 ^ 63 =? 0
     then Aborted Assert_dark_count_positive
     else Done (alternating_row (5 mod 2 ^ 63))).
Proof.
  assert (H0 : is_size_t 0) by (unfold is_size_t, size_t_modulus; lia).
  assert (H5 : is_size_t 5) by (unfold is_size_t, size_t_modulus; lia).
  split; [exact H0|]. split; [apply (disk_state_new_any 0 H0)|].
  split; [exact H5|]. apply (disk_state_new_any 5 H5).
Defined.

(** ** The two format checks on any row *)

Lemma is_alternating_loop_any this fuel :
  1 <= total_count this < size_t_modulus →
  ∀ i, 0 <= i → i mod 2 = 0 → total_count this - i < Z.of_nat fuel →
    ∃ b, is_alternating_loop fuel this (total_count this) i = Done b ∧
         (b = true ↔
          ∀ p, i <= p → p mod 2 = 0 → p + 1 < total_count this →
               get this p = Done DISK_LIGHT ∧
               get this (p + 1) = Done DISK_DARK).
Proof.
  intros Hn. induction fuel as [|fuel IH]; intros i Hi Heven Hfuel; simpl;
    sz_simpl; destruct (Z.ltb_spec i (total_count this - 1)) as [Hlt|Hge];
    try lia;
    try (exists true; split; [done|]; split; [|done]; intros _ p ???; lia).
  - sz_simpl.
    destruct (get_in_range this i ltac:(lia)) as (c & Hc & _).
    destruct (get_in_range this (i + 1) ltac:(lia)) as (c' & Hc' & _).
    rewrite Hc. cbn [mbind outcome_bind].
    destruct c; cbn [color_eqb negb]; cycle 1.
    { exists false. split; [done|]. split; [done|]. intros Hall.
      destruct (Hall i) as [Hl _]; [lia..|]. congruence. }
    rewrite Hc'. cbn [mbind outcome_bind].
    destruct c'; cbn [color_eqb negb].
    { exists false. split; [done|]. split; [done|]. intros Hall.
      destruct (Hall i) as [_ Hd]; [lia..|]. congruence. }
    destruct (IH (i + 2)) as (b & Hb & Hiff); [lia|arith|lia|].
    exists b. split; [done|]. rewrite Hiff. split; intros Hall p Hp Hpe Hpn.
    + destruct (Z.eq_dec p i) as [->|]; [done|]. apply Hall; [arith|done..].
    + apply Hall; [lia|done..].
Qed.

(** X8.  [is_alternating()] on any row.  On the empty row [size - 1] wraps
    around and the first [get] aborts on the index assertion.  On any other
    row it returns, and it returns true exactly when every pair of positions
    (0,1), (2,3), ... that lies inside the row is (light, dark); the last
    disk of a row of odd length is not looked at. *)
Theorem is_alternating_any this :
  total_count this < size_t_modulus →
  if total_count this =? 0
  then is_alternating this = Aborted Assert_is_index
  else ∃ b, is_alternating this = Done b ∧
            (b = true ↔
             ∀ p, 0 <= p → p mod 2 = 0 → p + 1 < total_count this →
                  get this p = Done DISK_LIGHT ∧
                  get this (p + 1) = Done DISK_DARK).
Proof.
  intros Hn. destruct (Z.eqb_spec (total_count this) 0) as [H0|H0].
  - destruct this as [[|c cs]]; [done|]. unfold total_count in H0.
    simpl in H0. lia.
  - unfold is_alternating. apply is_alternating_loop_any;
      unfold total_count in *; try done; lia.
Qed.

Lemma is_alternating_any_witness :
  total_count (row_of 0 alt_fun) < size_t_modulus ∧
  (if total_count (row_of 0 alt_fun) =? 0
   then is_alternating (row_of 0 alt_fun) = Aborted Assert_is_index
   else ∃ b, is_alternating (row_of 0 alt_fun) = Done b ∧
             (b = true ↔
              ∀ p, 0 <= p → p mod 2 = 0 →
                   p + 1 < total_count (row_of 0 alt_fun) →
                   get (row_of 0 alt_fun) p = Done DISK_LIGHT ∧
                   get (row_of 0 alt_fun) (p + 1) = Done DISK_DARK)) ∧
  total_count (grouped_row 2) < size_t_modulus ∧
  (if total_count (grouped_row 2) =? 0
   then is_alternating (grouped_row 2) = Aborted Assert_is_index
   else ∃ b, is_alternating (grouped_row 2) = Done b ∧
             (b = true ↔
              ∀ p, 0 <= p → p mod 2 = 0 →
                   p + 1 < total_count (grouped_row 2) →
                   get (grouped_row 2) p = Done DISK_LIGHT ∧
                   get (grouped_row 2) (p + 1) = Done DISK_DARK)).
Proof.
  split; [reflexivity|].
  split; [apply (is_alternating_any (row_of 0 alt_fun)); reflexivity|].
  split; [reflexivity|].
  apply (is_alternating_any (grouped_row 2)); reflexivity.
Defined.

Lemma is_sorted_loop_any this lightSize fuel :
  0 <= lightSize → 2 * lightSize <= total_count this < size_t_modulus →
  ∀ i, 0 <= i → lightSize - i <= Z.of_nat fuel →
    ∃ b, is_sorted_loop fuel this lightSize i = Done b ∧
         (b = true ↔
          ∀ p, i <= p < lightSize →
               get this p = Done DISK_LIGHT ∧
               get this (p + lightSize) = Done DISK_DARK).
Proof.
  intros Hm Hn. induction fuel as [|fuel IH]; intros i Hi Hfuel; simpl;
    destruct (Z.ltb_spec i lightSize) as [Hlt|Hge]; try lia;
    try (exists true; split; [done|]; split; [|done]; intros _ p ?; lia).
  - sz_simpl.
    destruct (get_in_range this i ltac:(lia)) as (c & Hc & _).
    destruct (get_in_range this (i + lightSize) ltac:(lia)) as (c' & Hc' & _).
    rewrite Hc. cbn [mbind outcome_bind].
    destruct c; cbn [color_eqb negb]; cycle 1.
    { exists false. split; [done|]. split; [done|]. intros Hall.
      destruct (Hall i) as [Hl _]; [lia|]. congruence. }
    rewrite Hc'. cbn [mbind outcome_bind].
    destruct c'; cbn [color_eqb negb].
    { exists false. split; [done|]. split; [done|]. intros Hall.
      destruct (Hall i) as [_ Hd]; [lia|]. congruence. }
    destruct (IH (i + 1)) as (b & Hb & Hiff); [lia..|].
    exists b. split; [done|]. rewrite Hiff. split; intros Hall p Hp.
    + destruct (Z.eq_dec p i) as [->|]; [done|]. apply Hall. lia.
    + apply Hall. lia.
Qed.

(** X9.  [is_sorted()] returns on every row, the empty one included: it
    never trips an index assertion.  It returns true exactly when the first
    [light_count()] disks are light and the [light_count()] disks after them
    are dark; the last disk of a row of odd length is not looked at. *)
Theorem is_sorted_any this :
  total_count this < size_t_modulus →
  ∃ b, is_sorted this = Done b ∧
       (b = true ↔
        ∀ p, 0 <= p < light_count this →
             get this p = Done DISK_LIGHT ∧
             get this (p + light_count this) = Done DISK_DARK).
Proof.
  intros Hn. unfold is_sorted.
  assert (0 <= total_count this) by (unfold total_count; lia).
  apply is_sorted_loop_any; unfold light_count, dark_count;
    [arith|arith|lia|]. unfold total_count in *. arith.
Qed.

Lemma is_sorted_any_witness :
  total_count (row_of 3 alt_fun) < size_t_modulus ∧
  ∃ b, is_sorted (row_of 3 alt_fun) = Done b ∧
       (b = true ↔
        ∀ p, 0 <= p < light_count (row_of 3 alt_fun) →
             get (row_of 3 alt_fun) p = Done DISK_LIGHT ∧
             get (row_of 3 alt_fun) (p + light_count (row_of 3 alt_fun)) =
               Done DISK_DARK).
Proof.
  split; [reflexivity|]. apply (is_sorted_any (row_of 3 alt_fun)).
  reflexivity.
Defined.

(** ** The checks and the sorters on the rows a program can hold *)

Lemma is_sorted_true this k :
  1 <= k → 2 * k < size_t_modulus →
  length (_colors this) = Z.to_nat (2 * k) →
  is_sorted this = Done true →
  this = grouped_row k.
Proof.
  intros Hk Hsize Hlen Hsorted.
  assert (Hn : total_count this = 2 * k) by (unfold total_count; lia).
  destruct (is_sorted_any this ltac:(lia)) as (b & Hb & Hiff).
  rewrite Hsorted in Hb. injection Hb as <-.
  destruct Hiff as [Hall _]. specialize (Hall eq_refl).
  unfold light_count, dark_count in Hall. rewrite Hn in Hall.
  replace (2 * k / 2) with k in Hall by arith.
  destruct this as [cs]. unfold grouped_row, row_of. f_equal.
  cbn [_colors] in *. apply list_eq. intros p.
  rewrite list_lookup_fmap.
  destruct (decide (p < Z.to_nat (2 * k))%nat).
  - rewrite lookup_seq_lt by done. simpl. unfold grouped_fun.
    destruct (Z.ltb_spec (Z.of_nat p) k).
    + destruct (Hall (Z.of_nat p)) as [Hl _]; [lia|].
      apply get_Done in Hl as [_ Hl]. cbn [_colors] in Hl.
      now rewrite Nat2Z.id in Hl.
    + destruct (Hall (Z.of_nat p - k)) as [_ Hd]; [lia|].
      apply get_Done in Hd as [_ Hd]. cbn [_colors] in Hd.
      now replace (Z.to_nat (Z.of_nat p - k + k)) with p in Hd by lia.
  - rewrite lookup_seq_ge by lia. simpl. apply lookup_ge_None_2. lia.
Qed.

Lemma checks_on_even_row this k :
  1 <= k → 2 * k < size_t_modulus →
  length (_colors this) = Z.to_nat (2 * k) →
  is_alternating this = Done (bool_decide (this = alternating_row k)) ∧
  is_sorted this = Done (bool_decide (this = grouped_row k)).
Proof.
  intros Hk Hsize Hlen.
  assert (Hn : total_count this = 2 * k) by (unfold total_count; lia).
  split.
  - pose proof (is_alternating_any this ltac:(lia)) as Hany.
    destruct (Z.eqb_spec (total_count this) 0); [lia|].
    destruct Hany as (b & Hb & _). rewrite Hb. f_equal. symmetry.
    destruct b.
    + apply bool_decide_eq_true. now apply is_alternating_true.
    + apply bool_decide_eq_false. intros ->.
      rewrite is_alternating_alternating in Hb by done. discriminate.
  - destruct (is_sorted_any this ltac:(lia)) as (b & Hb & _).
    rewrite Hb. f_equal. symmetry. destruct b.
    + apply bool_decide_eq_true. now apply is_sorted_true.
    + apply bool_decide_eq_false. intros ->.
      rewrite is_sorted_grouped in Hb by done. discriminate.
Qed.

Lemma row_state_light_count this :
  row_state this →
  ∃ k, 1 <= k ∧ 2 * k < size_t_modulus ∧
       length (_colors this) = Z.to_nat (2 * k) ∧
       total_count this = 2 * k ∧ light_count this = k.
Proof.
  intros Hrow.
  destruct (row_state_length this Hrow) as (k & Hk & Hsize & Hlen).
  assert (Hn : total_count this = 2 * k) by (unfold total_count; lia).
  exists k. repeat split; try done.
  unfold light_count, dark_count. rewrite Hn. arith.
Qed.

(** X10.  On a row a program can hold, the two checks never abort and they
    decide the two formats: [is_alternating()] is true exactly on the row
    the constructor builds for that length, and [is_sorted()] exactly on the
    row with all light disks first. *)
Theorem checks_decide_the_formats this :
  row_state this →
  is_alternating this =
    Done (bool_decide (this = alternating_row (light_count this))) ∧
  is_sorted this =
    Done (bool_decide (this = grouped_row (light_count this))).
Proof.
  intros Hrow.
  destruct (row_state_light_count this Hrow)
    as (k & Hk & Hsize & Hlen & _ & ->).
  now apply checks_on_even_row.
Qed.

Lemma checks_decide_the_formats_witness :
  row_state (grouped_row 2) ∧
  is_alternating (grouped_row 2) =
    Done (bool_decide
            (grouped_row 2 = alternating_row (light_count (grouped_row 2)))) ∧
  is_sorted (grouped_row 2) =
    Done (bool_decide
            (grouped_row 2 = grouped_row (light_count (grouped_row 2)))).
Proof.
  assert (Hrow : row_state (grouped_row 2)).
  { apply (row_swapped (alternating_row 2) 1); [|reflexivity].
    apply (row_constructed 2); [|reflexivity].
    unfold is_size_t, size_t_modulus. lia. }
  split; [exact Hrow|]. apply (checks_decide_the_formats (grouped_row 2) Hrow).
Defined.

(** X11.  On a row a program can hold, each sorter either returns the
    grouped row with [k * (k - 1) / 2] swaps counted, when the row is the
    alternating one, or aborts on [assert(before.is_alternating())] before
    its loops; it never aborts on an index assertion. *)
Theorem sorters_on_any_row before :
  row_state before →
  sort_left_to_right before =
    (if bool_decide (before = alternating_row (light_count before))
     then Done (grouped_row (light_count before),
                sorted_disks_new (grouped_row (light_count before))
                  (int_wrap (triangle (light_count before - 1))))
     else Aborted Assert_is_alternating) ∧
  sort_lawnmower before =
    (if bool_decide (before = alternating_row (light_count before))
     then Done (grouped_row (light_count before),
                sorted_disks_new (grouped_row (light_count before))
                  (int_wrap (triangle (light_count before - 1))))
     else Aborted Assert_is_alternating).
Proof.
  intros Hrow.
  destruct (row_state_light_count before Hrow)
    as (k & Hk & Hsize & Hlen & _ & ->).
  destruct (checks_on_even_row before k Hk Hsize Hlen) as [Halt _].
  case_bool_decide as Heq.
  - rewrite Heq. split.
    + now apply sort_left_to_right_alternating.
    + now apply sort_lawnmower_alternating.
  - split.
    + now apply sort_left_to_right_not_alternating.
    + now apply sort_lawnmower_not_alternating.
Qed.

Lemma sorters_on_any_row_witness :
  row_state (grouped_row 2) ∧
  sort_left_to_right (grouped_row 2) =
    (if bool_decide
          (grouped_row 2 = alternating_row (light_count (grouped_row 2)))
     then Done (grouped_row (light_count (grouped_row 2)),
                sorted_disks_new (grouped_row (light_count (grouped_row 2)))
                  (int_wrap (triangle (light_count (grouped_row 2) - 1))))
     else Aborted Assert_is_alternating) ∧
  sort_lawnmower (grouped_row 2) =
    (if bool_decide
          (grouped_row 2 = alternating_row (light_count (grouped_row 2)))
     then Done (grouped_row (light_count (grouped_row 2)),
                sorted_disks_new (grouped_row (light_count (grouped_row 2)))
                  (int_wrap (triangle (light_count (grouped_row 2) - 1))))
     else Aborted Assert_is_alternating).
Proof.
  assert (Hrow : row_state (grouped_row 2)).
  { apply (row_swapped (alternating_row 2) 1); [|reflexivity].
    apply (row_constructed 2); [|reflexivity].
    unfold is_size_t, size_t_modulus. lia. }
  split; [exact Hrow|]. apply (sorters_on_any_row (grouped_row 2) Hrow).
Defined.

(** ** Inversions of the grouped row *)

Lemma grouped_row_colors k :
  0 <= k →
  _colors (grouped_row k) =
  replicate (Z.to_nat k) DISK_LIGHT ++ replicate (Z.to_nat k) DISK_DARK.
Proof.
  intros Hk. apply list_eq. intros p. unfold grouped_row.
  destruct (decide (p < Z.to_nat (2 * k))%nat).
  - rewrite lookup_row_of by done. unfold grouped_fun.
    destruct (Z.ltb_spec (Z.of_nat p) k).
    + rewrite lookup_app_l by (rewrite length_replicate; lia).
      symmetry. apply lookup_replicate_2. lia.
    + rewrite lookup_app_r by (rewrite length_replicate; lia).
      symmetry. apply lookup_replicate_2. rewrite length_replicate. lia.
  - rewrite !lookup_ge_None_2; [done| |rewrite length_row_of; lia].
    rewrite length_app, !length_replicate. lia.
Qed.

Lemma count_color_replicate_other c x (m : nat) :
  c ≠ x → count_color c (replicate m x) = 0%nat.
Proof.
  intros Hne. induction m as [|m IH]; simpl; [done|]. rewrite IH.
  destruct x, c; simpl; congruence.
Qed.

Lemma inversions_grouped k :
  0 <= k → inversions (_colors (grouped_row k)) = 0%nat.
Proof.
  intros Hk. rewrite grouped_row_colors by done.
  induction (Z.to_nat k) as [|a IH] at 1; simpl; [|done].
  induction (Z.to_nat k) as [|b IH]; simpl; [done|].
  now rewrite count_color_replicate_other.
Qed.

(** X12.  When a sorter returns on a row a program can hold, the row it
    leaves has no inversion, and the swap count it reports is the number of
    inversions of the row it was given, as an [unsigned]. *)
Theorem swap_count_is_inversions before b res :
  row_state before →
  sort_left_to_right before = Done (b, res) ∨
  sort_lawnmower before = Done (b, res) →
  inversions (_colors b) = 0%nat ∧
  swap_count res = Z.of_nat (inversions (_colors before)) mod 2 ^ 32.
Proof.
  intros Hrow Hsort.
  destruct (row_state_light_count before Hrow)
    as (k & Hk & Hsize & Hlen & Hn & _).
  destruct (sorter_run before b res ltac:(lia) Hsort)
    as (trace & [_ Hi] & _ & ->).
  assert (Halt : is_alternating before = Done true).
  { destruct Hsort as [H|H];
      eauto using sort_left_to_right_Done, sort_lawnmower_Done. }
  destruct (sorters_on_alternating before Hrow Halt)
    as (k' & Hk' & _ & _ & _ & Hltr & Hlawn).
  assert (b = grouped_row k') as ->.
  { destruct Hsort as [H|H]; [rewrite Hltr in H|rewrite Hlawn in H];
      now injection H as <- <-. }
  rewrite inversions_grouped in * by lia. split; [done|].
  f_equal. simpl in Hi. lia.
Qed.

Lemma swap_count_is_inversions_witness :
  row_state (alternating_row 4) ∧
  (sort_left_to_right (alternating_row 4) =
     Done (grouped_row 4, sorted_disks_new (grouped_row 4) 6) ∨
   sort_lawnmower (alternating_row 4) =
     Done (grouped_row 4, sorted_disks_new (grouped_row 4) 6)) ∧
  inversions (_colors (grouped_row 4)) = 0%nat ∧
  swap_count (sorted_disks_new (grouped_row 4) 6) =
    Z.of_nat (inversions (_colors (alternating_row 4))) mod 2 ^ 32.
Proof.
  assert (Hrow : row_state (alternating_row 4)).
  { apply (row_constructed 4); [|reflexivity].
    unfold is_size_t, size_t_modulus. lia. }
  split; [exact Hrow|]. split; [right; reflexivity|].
  apply (swap_count_is_inversions (alternating_row 4) (grouped_row 4)
           (sorted_disks_new (grouped_row 4) 6) Hrow).
  right. reflexivity.
Defined.

(** ** [operator==] *)

Lemma std_equal_None l1 l2 :
  std_equal l1 l2 = None ↔ l2 `prefix_of` l1 ∧ (length l2 < length l1)%nat.
Proof.
  revert l2. induction l1 as [|x l1 IH]; intros l2; simpl.
  - split; [done|]. intros [_ Hlen]. lia.
  - destruct l2 as [|y l2]; simpl.
    + split; [|done]. intros _. split; [apply prefix_nil|lia].
    + destruct (color_eqb x y) eqn:Hxy.
      * apply color_eqb_eq in Hxy as ->. rewrite IH. split.
        -- intros [Hp Hlen]. split; [now apply prefix_cons|lia].
        -- intros [Hp Hlen]. split; [now apply prefix_cons_inv_2 in Hp|lia].
      * split; [done|]. intros [Hp _].
        apply prefix_cons_inv_1 in Hp as ->. now destruct x.
Qed.

(** X13.  On two rows of the same length [operator==] is equality of the
    rows: it returns true when they hold the same disks in the same order
    and false otherwise, and it stays inside both vectors. *)
Theorem operator_eq_same_length this rhs :
  total_count this = total_count rhs →
  disk_state_eq this rhs = Some (bool_decide (this = rhs)).
Proof.
  intros Hn. unfold disk_state_eq.
  rewrite std_equal_same_length by (unfold total_count in Hn; lia).
  f_equal. apply bool_decide_ext. destruct this, rhs. cbn [_colors].
  split; congruence.
Qed.

Lemma operator_eq_same_length_witness :
  total_count (alternating_row 2) = total_count (grouped_row 2) ∧
  disk_state_eq (alternating_row 2) (grouped_row 2) =
    Some (bool_decide (alternating_row 2 = grouped_row 2)).
Proof.
  split; [reflexivity|].
  apply (operator_eq_same_length (alternating_row 2) (grouped_row 2)).
  reflexivity.
Defined.

(** X14.  [operator==] on any two rows: it returns true exactly when the
    left row is a prefix of the right one, and it reads past the end of the
    right row (undefined behaviour of [std::equal] with three iterators)
    exactly when the right row is shorter than the left one and a prefix of
    it. *)
Theorem operator_eq_any this rhs :
  (disk_state_eq this rhs = Some true ↔
   _colors this `prefix_of` _colors rhs) ∧
  (disk_state_eq this rhs = None ↔
   _colors rhs `prefix_of` _colors this ∧
   total_count rhs < total_count this).
Proof.
  unfold disk_state_eq, total_count. split.
  - apply std_equal_true.
  - rewrite std_equal_None. split; intros [? ?]; (split; [done|lia]).
Qed.

(** ** [to_string] *)

Lemma string_app_empty (s : string) : ("" +:+ s = s)%string.
Proof. reflexivity. Qed.

Lemma string_app_String a (s t : string) :
  (String a s +:+ t = String a (s +:+ t))%string.
Proof. reflexivity. Qed.

Lemma string_app_assoc (s1 s2 s3 : string) :
  ((s1 +:+ s2) +:+ s3 = s1 +:+ (s2 +:+ s3))%string.
Proof.
  induction s1 as [|a s1 IH]; [done|].
  now rewrite !string_app_String, IH.
Qed.

Lemma concat_cons_cons sep (x y : string) l :
  String.concat sep (x :: y :: l) =
  (x +:+ sep +:+ String.concat sep (y :: l))%string.
Proof. reflexivity. Qed.

Lemma to_string_loop_concat cs :
  ∀ ss c,
    to_string_loop cs false (ss +:+ color_label c)%string =
    (ss +:+ String.concat " " (map color_label (c :: cs)))%string.
Proof.
  induction cs as [|c' cs IH]; intros ss c; [done|].
  cbn [to_string_loop negb].
  replace (if color_eqb c' DISK_LIGHT
           then ((ss +:+ color_label c) +:+ " ") +:+ "L"
           else ((ss +:+ color_label c) +:+ " ") +:+ "D")%string
    with (((ss +:+ color_label c) +:+ " ") +:+ color_label c')%string
    by now destruct c'.
  rewrite IH. cbn [map]. rewrite concat_cons_cons.
  now rewrite !string_app_assoc.
Qed.

Lemma to_string_concat this :
  to_string this = String.concat " " (map color_label (_colors this)).
Proof.
  unfold to_string. destruct (_colors this) as [|c cs]; [done|].
  cbn [to_string_loop negb].
  replace (if color_eqb c DISK_LIGHT then "" +:+ "L" else "" +:+ "D")%string
    with ("" +:+ color_label c)%string by now destruct c.
  now rewrite to_string_loop_concat.
Qed.

Lemma concat_labels_length cs :
  ∀ c, String.length (String.concat " " (map color_label (c :: cs))) =
       (2 * length cs + 1)%nat.
Proof.
  induction cs as [|c' cs IH]; intros c; [now destruct c|].
  cbn [map] in *. rewrite concat_cons_cons.
  destruct c; cbn [color_label color_eqb];
    rewrite !string_app_String, !string_app_empty; cbn [String.length];
    rewrite IH; simpl; lia.
Qed.

(** X15.  [to_string()] is the labels of the disks, "L" for a light and "D"
    for a dark one, in order and joined by single spaces: no space before the
    first label or after the last one, and the empty string for an empty
    row.  A row of [n >= 1] disks is rendered in [2 * n - 1] characters. *)
Theorem to_string_joins_labels this :
  to_string this = String.concat " " (map color_label (_colors this)) ∧
  String.length (to_string this) = Z.to_nat (2 * total_count this - 1).
Proof.
  split; [apply to_string_concat|].
  rewrite to_string_concat. unfold total_count.
  destruct (_colors this) as [|c cs]; [done|].
  rewrite concat_labels_length. simpl. lia.
Qed.

Lemma concat_labels_inj l1 :
  ∀ l2,
    String.concat " " (map color_label l1) =
    String.concat " " (map color_label l2) →
    l1 = l2.
Proof.
  induction l1 as [|x l1 IH]; intros [|y l2] H; try done.
  - destruct l2, y; discriminate.
  - destruct l1, x; discriminate.
  - destruct l1 as [|x' l1], l2 as [|y' l2]; cbn [map] in H.
    + destruct x, y; done.
    + rewrite concat_cons_cons in H. destruct x, y; discriminate.
    + rewrite concat_cons_cons in H. destruct x, y; discriminate.
    + rewrite !concat_cons_cons in H.
      assert (x = y ∧
              String.concat " " (map color_label (x' :: l1)) =
              String.concat " " (map color_label (y' :: l2))) as [-> Ht].
      { cbn [map].
        set (t1 := String.concat _ _) in *.
        set (t2 := String.concat _ _) in *. clearbody t1 t2.
        destruct x, y; simpl in H; by simplify_eq. }
      f_equal. now apply IH.
Qed.

(** X16.  [to_string()] tells rows apart: two rows with the same rendering
    are the same row. *)
Theorem to_string_injective this that :
  to_string this = to_string that → this = that.
Proof.
  rewrite !to_string_concat. intros H.
  apply concat_labels_inj in H. destruct this, that. cbn [_colors] in H.
  congruence.
Qed.

Lemma to_string_injective_witness :
  to_string (alternating_row 1) = to_string (grouped_row 1) ∧
  alternating_row 1 = grouped_row 1.
Proof.
  split; [reflexivity|].
  apply (to_string_injective (alternating_row 1) (grouped_row 1)).
  reflexivity.
Defined.

(** ** The passes of the sorters *)

(** X17.  Pass [i] of [sort_left_to_right] on 2k disks.  It finds [i]
    light disks, then [k - i] pairs (light, dark), then [i] dark disks; it
    makes exactly [k - i - 1] swaps and leaves [i + 1] light disks, [k - i -
    1] pairs (light, dark) and [i + 1] dark disks.  So after every pass one
    more disk at each end is in its final place, which is what lets the
    inner loop start at [i + 1] and stop before [totalCount - i - 1]. *)
Theorem left_to_right_pass k i c :
  1 <= k → 2 * k < size_t_modulus → 0 <= i < k →
  left_to_right_inner (Z.to_nat (2 * k)) (2 * k) i (sz_add i 1)
    (row_of (Z.to_nat (2 * k)) (pass_fun k i)) (int_wrap c) =
  Done (row_of (Z.to_nat (2 * k)) (pass_fun k (i + 1)),
        int_wrap (c + (k - i - 1))).
Proof.
  intros Hk Hsize Hi. sz_simpl.
  rewrite pass_fun_inner_start by done.
  rewrite (left_to_right_inner_spec k Hk Hsize i
             (Z.to_nat (2 * k - i - 1 - (i + 1)))) by lia.
  do 3 f_equal. arith.
Qed.

Lemma left_to_right_pass_witness :
  1 <= 3 ∧ 2 * 3 < size_t_modulus ∧ 0 <= 1 < 3 ∧
  left_to_right_inner (Z.to_nat (2 * 3)) (2 * 3) 1 (sz_add 1 1)
    (row_of (Z.to_nat (2 * 3)) (pass_fun 3 1)) (int_wrap 2) =
  Done (row_of (Z.to_nat (2 * 3)) (pass_fun 3 (1 + 1)),
        int_wrap (2 + (3 - 1 - 1))).
Proof.
  split; [lia|]. split; [reflexivity|]. split; [lia|].
  apply (left_to_right_pass 3 1 2); [lia|reflexivity|lia].
Defined.

(** X18.  A backward sweep of [sort_lawnmower] on 2k disks.  The sweep
    that runs with [i = t + 1] (for [t <= k - 3]) finds [t + 2] light disks,
    two dark disks, [k - 2 - t] pairs (light, dark) and [t] dark disks; it
    makes exactly [k - t - 1] swaps and leaves one more light disk in front
    and one more dark disk at the end. *)
Theorem lawnmower_backward_pass k t c :
  2 <= k → 2 * k < size_t_modulus → 0 <= t <= k - 3 →
  lawnmower_backward (Z.to_nat (2 * k)) (t + 1)
    (sz_sub (sz_sub (2 * k) (t + 1)) 1)
    (row_of (Z.to_nat (2 * k)) (lawnmower_fun k t)) (int_wrap c) =
  Done (row_of (Z.to_nat (2 * k)) (lawnmower_fun k (t + 1)),
        int_wrap (c + (k - t - 1))).
Proof.
  intros Hk Hsize Ht. sz_simpl.
  replace (2 * k - (t + 1) - 1) with (2 * k - t - 2) by lia.
  apply lawnmower_backward_sweep; lia.
Qed.

Lemma lawnmower_backward_pass_witness :
  2 <= 4 ∧ 2 * 4 < size_t_modulus ∧ 0 <= 1 <= 4 - 3 ∧
  lawnmower_backward (Z.to_nat (2 * 4)) (1 + 1)
    (sz_sub (sz_sub (2 * 4) (1 + 1)) 1)
    (row_of (Z.to_nat (2 * 4)) (lawnmower_fun 4 1)) (int_wrap 4) =
  Done (row_of (Z.to_nat (2 * 4)) (lawnmower_fun 4 (1 + 1)),
        int_wrap (4 + (4 - 1 - 1))).
Proof.
  split; [lia|]. split; [reflexivity|]. split; [lia|].
  apply (lawnmower_backward_pass 4 1 4); [lia|reflexivity|lia].
Defined.

(** X19.  The forward loop of [sort_lawnmower] on the alternating row of
    2k disks, [k >= 2], as the outer loop starts it ([i = 0], [j = 1]): it
    returns with the row grouped, all [k * (k - 1) / 2] swaps counted and
    [i = k], so that the test [i < lightCount / 2] of the outer loop fails
    after its [i++]: the body of the outer loop runs once. *)
Theorem lawnmower_forward_groups k :
  2 <= k → 2 * k < size_t_modulus →
  lawnmower_forward (Z.to_nat (2 * k)) (2 * k) 0 (sz_add 0 1)
    (alternating_row k) 0 =
  Done (k, grouped_row k, int_wrap (triangle (k - 1))) ∧
  (sz_add k 1 <? k / 2) = false.
Proof.
  intros Hk Hsize. split.
  - pose proof (lawnmower_forward_alternating k Hk Hsize
                  (Z.to_nat (2 * k)) 0 ltac:(lia)) as Hrun.
    now rewrite int_wrap_0 in Hrun.
  - sz_simpl. apply Z.ltb_ge. arith.
Qed.

Lemma lawnmower_forward_groups_witness :
  2 <= 4 ∧ 2 * 4 < size_t_modulus ∧
  lawnmower_forward (Z.to_nat (2 * 4)) (2 * 4) 0 (sz_add 0 1)
    (alternating_row 4) 0 =
  Done (4, grouped_row 4, int_wrap (triangle (4 - 1))) ∧
  (sz_add 4 1 <? 4 / 2) = false.
Proof.
  split; [lia|]. split; [reflexivity|].
  apply (lawnmower_forward_groups 4); [lia|reflexivity].
Defined.
